(** * RuaBot web UI: the chat page's synchronisation and unread tracking

    A shallow embedding of the [ChatPage] component of
    [webui/src/components/Layout.tsx]: the global message poller
    ([checkNewMessages]), the unread map, the contact reconciler with its
    sort, the thread loader, the scroll effect and [handleSendMessage].

    React state and refs become the fields of one record, every handler is a
    computation in a small state/exception/trace monad, and the asynchronous
    responses of the backend are the inputs of the handlers. *)

From Stdlib Require Import ZArith String Ascii List Sorted Permutation Lia.
From stdpp Require Import base option list strings gmap fin_maps pretty.

Open Scope string_scope.
Open Scope list_scope.
Open Scope Z_scope.

(** ** JavaScript values *)

(** The numbers the page computes with are the results of
    [new Date(x).getTime()] and of [Date.now()]: an integral number of
    milliseconds, or [NaN] when the date does not parse. *)
Inductive jsnum : Type :=
  | NaN
  | Num (z : Z).

Global Instance jsnum_eq_dec : EqDecision jsnum.
Proof. solve_decision. Defined.

(** [a > b] where [b] is a proper number; any comparison with [NaN] is false. *)
Definition js_gt (a : jsnum) (b : Z) : bool :=
  match a with
  | NaN => false
  | Num z => b <? z
  end.

(** [x || 0] for [x : number | undefined]: [undefined], [NaN] and [0] are falsy. *)
Definition or_zero (x : option jsnum) : Z :=
  match x with
  | Some (Num z) => z
  | _ => 0
  end.

(** [n || 0] for a count read from an object used as a map. *)
Definition count_or_zero (x : option nat) : nat := default 0%nat x.

(** Interpolation of a possibly missing field into a template literal. *)
Definition js_template (x : option string) : string := default "undefined" x.

(** An id of the message log, [string | number] by [interface MessageLog]. *)
Inductive jsid : Type :=
  | IdString (s : string)
  | IdNumber (n : Z).

Global Instance jsid_eq_dec : EqDecision jsid.
Proof. solve_decision. Defined.

(** An id in a template literal: a string as it is, an integral number in
    decimal. *)
Definition id_text (x : jsid) : string :=
  match x with
  | IdString s => s
  | IdNumber n => pretty n
  end.

(** [Array.prototype.sort(compareFn)]: the sort is stable (ECMAScript 2019),
    so for a consistent comparator its result is the stable insertion of
    every element; [compareFn a b > 0] puts [a] after [b]. *)
Section array_sort.
Context {A : Type} (compareFn : A → A → Z).

Fixpoint sort_insert (x : A) (l : list A) : list A :=
  match l with
  | [] => [x]
  | y :: l' => if 0 <? compareFn x y then y :: sort_insert x l' else x :: y :: l'
  end.

Definition array_sort (l : list A) : list A := foldr sort_insert [] l.
End array_sort.

(** ** Data model *)

(** [type: 'group' | 'private'] *)
Inductive ContactType : Type := group | private.

Global Instance ContactType_eq_dec : EqDecision ContactType.
Proof. solve_decision. Defined.

Definition type_name (t : ContactType) : string :=
  match t with
  | group => "group"
  | private => "private"
  end.

(** [interface Contact]. Identifiers are strings, as the interface declares. *)
Record Contact : Type := mkContact {
  id : string;
  name : string;
  avatar : string;
  type : ContactType;
  lastMessage : option string;
  lastMessageTime : option jsnum;
  unread : option nat;
  member_count : option nat;
  max_member_count : option nat;
  remark : option string
}.

Global Instance Contact_eq_dec : EqDecision Contact.
Proof. solve_decision. Defined.

(** An entry of the message log returned by [api.getMessageLog]. A date field
    ([string] by [interface MessageLog]) is represented by what
    [new Date(field).getTime()] makes of it, and is [None] when the field is
    missing or the empty string, which [||] skips and [new Date] turns into
    an invalid date. *)
Record LogMsg : Type := mkLogMsg {
  timestamp : option jsnum;
  time : option jsnum;
  message_type : string;
  user_id : jsid;
  group_id : option jsid;
  is_self : bool;
  is_system : bool;
  message : option string
}.

(** [interface Message]: an entry of the open thread. *)
Record Message : Type := mkMessage {
  m_id : string;
  m_timestamp : string;
  m_user_id : string;
  m_message : string;
  m_is_self : bool
}.

(** An entry of [data.groups] or [data.friends] of [api.getChatContacts]. *)
Record DirEntry : Type := mkDirEntry {
  d_id : string;
  d_name : string;
  d_avatar : string;
  d_member_count : option nat;
  d_max_member_count : option nat;
  d_remark : option string
}.

(** A rejected request as the [catch] of a handler reads it; [detail] is
    [error.response?.data?.detail]. What the interceptors of the client do
    with the same error before the handler sees it is [Api.responseError]. *)
Record JsError : Type := mkJsError {
  detail : option string
}.

(** ** Conversation keys *)

(** [`${contact.type}-${contact.id}`] *)
Definition contactKey (c : Contact) : string :=
  type_name (type c) +:+ "-" +:+ id c.

(** [msg.message_type === 'group' ? `group-${msg.group_id}` : `private-${msg.user_id}`] *)
Definition msgKey (msg : LogMsg) : string :=
  if decide (message_type msg = "group")
  then "group-" +:+ js_template (id_text <$> group_id msg)
  else "private-" +:+ id_text (user_id msg).

(** [new Date(msg.timestamp || msg.time).getTime()] *)
Definition msgTime (msg : LogMsg) : jsnum :=
  match timestamp msg with
  | Some n => n
  | None => default NaN (time msg)
  end.

(** [new Date(lastMsg.timestamp).getTime()]: no fallback to [time] here. *)
Definition stampTime (msg : LogMsg) : jsnum := default NaN (timestamp msg).

(** ** The poll: unread counting *)

(** The body of [newMessagesOnly.forEach]: one message against the viewed
    set and the selected contact, accumulating into [newUnreadCounts]. *)
Definition countMessage (viewed : gset string) (selected : option Contact)
    (newUnreadCounts : gmap string nat) (msg : LogMsg) : gmap string nat :=
  if is_system msg || is_self msg then newUnreadCounts
  else
    let key := msgKey msg in
    if decide (key ∈ viewed) then newUnreadCounts
    else
      match selected with
      | Some sel =>
          if decide (key = contactKey sel) then newUnreadCounts
          else <[key := (count_or_zero (newUnreadCounts !! key) + 1)%nat]> newUnreadCounts
      | None => <[key := (count_or_zero (newUnreadCounts !! key) + 1)%nat]> newUnreadCounts
      end.

(** [allMessages.filter(msg => msgTime > lastCheckedTime)] *)
Definition newMessagesOnly (cursor : Z) (allMessages : list LogMsg) : list LogMsg :=
  filter (λ msg, js_gt (msgTime msg) cursor = true) allMessages.

Definition newUnreadCounts (cursor : Z) (viewed : gset string)
    (selected : option Contact) (allMessages : list LogMsg) : gmap string nat :=
  foldl (countMessage viewed selected) ∅ (newMessagesOnly cursor allMessages).

(** The updater passed to [setUnreadCounts]: every key of the tick's counts
    is added to the previous value. *)
Definition mergeCounts (new prev : gmap string nat) : gmap string nat :=
  map_fold (λ key n merged, <[key := (count_or_zero (merged !! key) + n)%nat]> merged)
           prev new.

(** ** The poll: contact reconciliation *)

(** The predicate of [allMessages.filter] selecting a contact's messages.
    The ids are compared with [===] against the contact's id, a string: an
    id that is a number is equal to none. *)
Definition matchesContact (contact : Contact) (msg : LogMsg) : bool :=
  if bool_decide (message_type msg = "group") && bool_decide (type contact = group)
  then bool_decide (group_id msg = Some (IdString (id contact)))
  else if bool_decide (message_type msg = "private") && bool_decide (type contact = private)
  then bool_decide (user_id msg = IdString (id contact))
  else false.

Definition contactMessages (contact : Contact) (allMessages : list LogMsg) : list LogMsg :=
  filter (λ msg, matchesContact contact msg = true) allMessages.

(** The body of [prevContacts.map]. The preview is
    [lastMsg.message?.substring(0, 30)], cut here by characters of the
    string as it is stored. *)
Definition updateContact (allMessages : list LogMsg) (counts : gmap string nat)
    (contact : Contact) : Contact :=
  match contactMessages contact allMessages with
  | lastMsg :: _ =>
      {| id := id contact; name := name contact; avatar := avatar contact;
         type := type contact;
         lastMessage := String.substring 0 30 <$> message lastMsg;
         lastMessageTime := Some (stampTime lastMsg);
         unread := Some (count_or_zero (counts !! contactKey contact));
         member_count := member_count contact;
         max_member_count := max_member_count contact;
         remark := remark contact |}
  | [] => contact
  end.

(** The comparator of the contact sort. *)
Definition compareContacts (a b : Contact) : Z :=
  let timeA := or_zero (lastMessageTime a) in
  let timeB := or_zero (lastMessageTime b) in
  timeB - timeA.

(** The updater passed to [setContacts]. *)
Definition reconcileContacts (allMessages : list LogMsg) (counts : gmap string nat)
    (prevContacts : list Contact) : list Contact :=
  array_sort compareContacts (updateContact allMessages counts <$> prevContacts).

(** ** Component state *)

(** The [useState] cells and [useRef] boxes of [ChatPage].
    [capturedLastCheckedTime] is the [lastCheckedTime] that the closure
    [checkNewMessages] reads: the poll effect is declared with the dependency
    list [[selectedContact]], so the closure run by [setInterval] is the one
    built by the render in which the selection last changed (or the mount),
    with the value [lastCheckedTime] had in that render. *)
Record ChatState : Type := mkChatState {
  contacts : list Contact;
  selectedContact : option Contact;
  messages : list Message;
  inputMessage : string;
  loading : bool;
  sending : bool;
  unreadCounts : gmap string nat;
  lastCheckedTime : Z;
  viewedChats : gset string;
  prevMessagesLength : nat;
  capturedLastCheckedTime : Z
}.

Definition set_contacts (f : list Contact → list Contact) (s : ChatState) : ChatState :=
  mkChatState (f (contacts s)) (selectedContact s) (messages s) (inputMessage s)
    (loading s) (sending s) (unreadCounts s) (lastCheckedTime s) (viewedChats s)
    (prevMessagesLength s) (capturedLastCheckedTime s).

Definition set_selectedContact (c : option Contact) (s : ChatState) : ChatState :=
  mkChatState (contacts s) c (messages s) (inputMessage s)
    (loading s) (sending s) (unreadCounts s) (lastCheckedTime s) (viewedChats s)
    (prevMessagesLength s) (capturedLastCheckedTime s).

Definition set_messages (ms : list Message) (s : ChatState) : ChatState :=
  mkChatState (contacts s) (selectedContact s) ms (inputMessage s)
    (loading s) (sending s) (unreadCounts s) (lastCheckedTime s) (viewedChats s)
    (prevMessagesLength s) (capturedLastCheckedTime s).

Definition set_inputMessage (text : string) (s : ChatState) : ChatState :=
  mkChatState (contacts s) (selectedContact s) (messages s) text
    (loading s) (sending s) (unreadCounts s) (lastCheckedTime s) (viewedChats s)
    (prevMessagesLength s) (capturedLastCheckedTime s).

Definition set_loading (b : bool) (s : ChatState) : ChatState :=
  mkChatState (contacts s) (selectedContact s) (messages s) (inputMessage s)
    b (sending s) (unreadCounts s) (lastCheckedTime s) (viewedChats s)
    (prevMessagesLength s) (capturedLastCheckedTime s).

Definition set_sending (b : bool) (s : ChatState) : ChatState :=
  mkChatState (contacts s) (selectedContact s) (messages s) (inputMessage s)
    (loading s) b (unreadCounts s) (lastCheckedTime s) (viewedChats s)
    (prevMessagesLength s) (capturedLastCheckedTime s).

Definition set_unreadCounts (f : gmap string nat → gmap string nat) (s : ChatState) : ChatState :=
  mkChatState (contacts s) (selectedContact s) (messages s) (inputMessage s)
    (loading s) (sending s) (f (unreadCounts s)) (lastCheckedTime s) (viewedChats s)
    (prevMessagesLength s) (capturedLastCheckedTime s).

Definition set_lastCheckedTime (t : Z) (s : ChatState) : ChatState :=
  mkChatState (contacts s) (selectedContact s) (messages s) (inputMessage s)
    (loading s) (sending s) (unreadCounts s) t (viewedChats s)
    (prevMessagesLength s) (capturedLastCheckedTime s).

Definition set_viewedChats (f : gset string → gset string) (s : ChatState) : ChatState :=
  mkChatState (contacts s) (selectedContact s) (messages s) (inputMessage s)
    (loading s) (sending s) (unreadCounts s) (lastCheckedTime s) (f (viewedChats s))
    (prevMessagesLength s) (capturedLastCheckedTime s).

Definition set_prevMessagesLength (n : nat) (s : ChatState) : ChatState :=
  mkChatState (contacts s) (selectedContact s) (messages s) (inputMessage s)
    (loading s) (sending s) (unreadCounts s) (lastCheckedTime s) (viewedChats s)
    n (capturedLastCheckedTime s).

Definition set_capturedLastCheckedTime (t : Z) (s : ChatState) : ChatState :=
  mkChatState (contacts s) (selectedContact s) (messages s) (inputMessage s)
    (loading s) (sending s) (unreadCounts s) (lastCheckedTime s) (viewedChats s)
    (prevMessagesLength s) t.

(** ** Observable effects *)

(** The argument of [scrollToBottom]. *)
Inductive ScrollArg : Type := smooth | instant.

(** The [behavior] option of [scrollIntoView]. *)
Inductive ScrollBehavior : Type := behavior_auto | behavior_smooth.

Inductive ApiCall : Type :=
  | GetMessageLog (limit : nat)
  | GetChatContacts
  | GetChatHistory (chatType : ContactType) (chatId : string) (limit : nat)
  | PostChatSend (chatType : ContactType) (chatId : string) (text : string).

(** A call postponed with [setTimeout]. *)
Inductive Deferred : Type :=
  | LoadMessages (contact : Contact) (showLoading : bool).

Inductive Effect : Type :=
  | Request (call : ApiCall)
  | ConsoleError (label : string)
  | ConsoleLog (label : string)
  | Alert (text : string)
  | ScrollIntoView (behavior : ScrollBehavior)
  | SetTimeout (task : Deferred) (ms : nat).

Global Instance ScrollArg_eq_dec : EqDecision ScrollArg.
Proof. solve_decision. Defined.
Global Instance ScrollBehavior_eq_dec : EqDecision ScrollBehavior.
Proof. solve_decision. Defined.
Global Instance ApiCall_eq_dec : EqDecision ApiCall.
Proof. solve_decision. Defined.
Global Instance Deferred_eq_dec : EqDecision Deferred.
Proof. solve_decision. Defined.
Global Instance Effect_eq_dec : EqDecision Effect.
Proof. solve_decision. Defined.

(** ** Handlers: state, exceptions and a trace of effects *)

Inductive Outcome (A : Type) : Type :=
  | Returned (a : A)
  | Thrown (e : JsError).
Arguments Returned {A} a.
Arguments Thrown {A} e.

Definition Handler (A : Type) : Type :=
  ChatState → Outcome A * ChatState * list Effect.

Definition ret {A} (a : A) : Handler A := λ s, (Returned a, s, []).

Definition bind {A B} (m : Handler A) (k : A → Handler B) : Handler B :=
  λ s, match m s with
       | (Returned a, s1, fx1) =>
           match k a s1 with
           | (r, s2, fx2) => (r, s2, fx1 ++ fx2)
           end
       | (Thrown e, s1, fx1) => (Thrown e, s1, fx1)
       end.

Definition throw {A} (e : JsError) : Handler A := λ s, (Thrown e, s, []).
Definition get : Handler ChatState := λ s, (Returned s, s, []).
Definition modify (f : ChatState → ChatState) : Handler unit := λ s, (Returned tt, f s, []).
Definition emit (fx : Effect) : Handler unit := λ s, (Returned tt, s, [fx]).

(** [try { body } catch (error) { handler error }]: what [body] did before it
    threw stays done. *)
Definition try_catch {A} (body : Handler A) (handler : JsError → Handler A) : Handler A :=
  λ s, match body s with
       | (Returned a, s1, fx1) => (Returned a, s1, fx1)
       | (Thrown e, s1, fx1) =>
           match handler e s1 with
           | (r, s2, fx2) => (r, s2, fx1 ++ fx2)
           end
       end.

(** [try { body } finally { final }] *)
Definition try_finally {A} (body : Handler A) (final : Handler unit) : Handler A :=
  λ s, match body s with
       | (r, s1, fx1) =>
           match final s1 with
           | (Returned _, s2, fx2) => (r, s2, fx1 ++ fx2)
           | (Thrown e, s2, fx2) => (Thrown e, s2, fx1 ++ fx2)
           end
       end.

Global Instance Handler_ret : MRet Handler := @ret.
Global Instance Handler_bind : MBind Handler := λ A B k m, bind m k.

(** [await api.f(...)]: the request is issued, and the handler goes on with
    the response or throws the rejection. An [async] handler is run at the
    moment its request settles. *)
Definition await {A} (call : ApiCall) (response : JsError + A) : Handler A :=
  emit (Request call) ;;
  match response with
  | inl e => throw e
  | inr a => ret a
  end.

Definition when (b : bool) (m : Handler unit) : Handler unit :=
  if b then m else ret tt.

(** ** The effects and handlers of [ChatPage] *)

Definition setContacts (f : list Contact → list Contact) : Handler unit :=
  modify (set_contacts f).
Definition setSelectedContact (c : option Contact) : Handler unit :=
  modify (set_selectedContact c).
Definition setInputMessage (text : string) : Handler unit :=
  modify (set_inputMessage text).
Definition setLoading (b : bool) : Handler unit := modify (set_loading b).
Definition setSending (b : bool) : Handler unit := modify (set_sending b).
Definition setUnreadCounts (f : gmap string nat → gmap string nat) : Handler unit :=
  modify (set_unreadCounts f).
Definition setLastCheckedTime (t : Z) : Handler unit := modify (set_lastCheckedTime t).

(** [checkNewMessages], run with the response of [api.getMessageLog(50)] and
    the value [Date.now()] returns after it. The cursor compared against is
    the one captured by the closure. *)
Definition checkNewMessages (response : JsError + list LogMsg) (now : Z) : Handler unit :=
  try_catch
    (allMessages ← await (GetMessageLog 50) response;
     s ← get;
     let counts :=
       newUnreadCounts (capturedLastCheckedTime s) (viewedChats s)
                       (selectedContact s) allMessages in
     setUnreadCounts (mergeCounts counts);;
     setLastCheckedTime now;;
     setContacts (reconcileContacts allMessages counts))
    (λ error, emit (ConsoleError "Failed to check new messages:")).

(** The poll effect, run after the mount and after every change of
    [selectedContact]: a new closure is installed, which reads the
    [lastCheckedTime] of the current render. The effect also calls
    [checkNewMessages()] at once and every 3 seconds; each such call is a
    [PollTick] event when its request settles. *)
Definition pollEffect : Handler unit :=
  s ← get;
  modify (set_capturedLastCheckedTime (lastCheckedTime s)).

(** [scrollToBottom]: [messagesEndRef] is attached exactly when the chat area
    is rendered, that is when a contact is selected. *)
Definition scrollToBottom (behavior : ScrollArg) : Handler unit :=
  s ← get;
  match selectedContact s with
  | Some _ =>
      match behavior with
      | instant => emit (ScrollIntoView behavior_auto)
      | smooth => emit (ScrollIntoView behavior_smooth)
      end
  | None => ret tt
  end.

(** The two branches of the scroll effect: which call of [scrollToBottom],
    if any, a thread of [length] messages triggers when the previous length
    was [prev]. *)
Definition scrollDecision (length prev : nat) : option ScrollArg :=
  if ((prev <? length)%nat && (0 <? prev)%nat)%bool then Some smooth
  else if ((0 <? length)%nat && (prev =? 0)%nat)%bool then Some instant
  else None.

(** The scroll effect, run after every render in which [messages] changed. *)
Definition scrollEffect : Handler unit :=
  s ← get;
  match scrollDecision (length (messages s)) (prevMessagesLength s) with
  | Some behavior => scrollToBottom behavior
  | None => ret tt
  end;;
  modify (set_prevMessagesLength (length (messages s))).

(** [setMessages(data)] with the render that follows it. *)
Definition setMessages (data : list Message) : Handler unit :=
  modify (set_messages data);;
  scrollEffect.

(** [loadMessages], run with the response of [api.getChatHistory]. *)
Definition loadMessages (contact : Contact) (showLoading : bool)
    (response : JsError + list Message) : Handler unit :=
  when showLoading (setLoading true);;
  try_finally
    (try_catch
       (data ← await (GetChatHistory (type contact) (id contact) 50) response;
        setMessages data)
       (λ error, emit (ConsoleError "Failed to load messages:")))
    (when showLoading (setLoading false)).

(** The thread-loader effect, run after every change of [selectedContact].
    It starts [loadMessages(selectedContact, true)] and the 2-second refresh,
    whose responses are [ThreadFetched] events, and resets the length
    counter. *)
Definition threadEffect : Handler unit :=
  s ← get;
  match selectedContact s with
  | Some _ => modify (set_prevMessagesLength 0)
  | None => ret tt
  end.

Definition groupContact (g : DirEntry) : Contact :=
  {| id := d_id g; name := d_name g; avatar := d_avatar g; type := group;
     lastMessage := None; lastMessageTime := None; unread := None;
     member_count := d_member_count g; max_member_count := d_max_member_count g;
     remark := None |}.

Definition friendContact (f : DirEntry) : Contact :=
  {| id := d_id f; name := d_name f; avatar := d_avatar f; type := private;
     lastMessage := None; lastMessageTime := None; unread := None;
     member_count := None; max_member_count := None;
     remark := d_remark f |}.

(** [loadContacts], run with the response of [api.getChatContacts]. *)
Definition loadContacts (response : JsError + (list DirEntry * list DirEntry)) : Handler unit :=
  setLoading true;;
  try_finally
    (try_catch
       (data ← await GetChatContacts response;
        setContacts (λ _, (groupContact <$> data.1) ++ (friendContact <$> data.2)))
       (λ error, emit (ConsoleError "Failed to load contacts:")))
    (setLoading false).

(** The [onClick] of a row of the contact list, with the effects of the
    render that follows the change of [selectedContact]: the poll effect and
    the thread-loader effect, both declared with the dependency list
    [[selectedContact]]. This is a click that changes [selectedContact]; a
    click that sets the contact object already selected runs neither
    effect. *)
Definition onContactClick (contact : Contact) : Handler unit :=
  let key := contactKey contact in
  setSelectedContact (Some contact);;
  modify (set_viewedChats (λ viewed, viewed ∪ {[ key ]}));;
  setUnreadCounts (delete key);;
  pollEffect;;
  threadEffect.

(** The [onClick] of the back button. *)
Definition onBackClick : Handler unit :=
  setSelectedContact None;;
  pollEffect;;
  threadEffect.

(** The badge of a row of the contact list: [unreadCounts[contactKey] || 0]. *)
Definition unreadCount (s : ChatState) (key : string) : nat :=
  count_or_zero (unreadCounts s !! key).

(** [String.prototype.trim] strips the white space and the line terminators
    of ECMAScript: the six of ASCII (tab, line feed, vertical tab, form
    feed, carriage return, space), U+00A0, U+1680, U+2000 to U+200A, U+2028,
    U+2029, U+202F, U+205F, U+3000 and U+FEFF. A string holds the UTF-8
    text, in which the others take two or three bytes. *)
Definition is_whitespace (c : ascii) : bool :=
  match nat_of_ascii c with
  | 9%nat | 10%nat | 11%nat | 12%nat | 13%nat | 32%nat => true
  | _ => false
  end.

(** U+00A0 *)
Definition is_whitespace2 (c1 c2 : ascii) : bool :=
  ((N_of_ascii c1 =? 194) && (N_of_ascii c2 =? 160))%N.

(** U+1680; U+2000 to U+200A, U+2028, U+2029, U+202F; U+205F; U+3000;
    U+FEFF *)
Definition is_whitespace3 (c1 c2 c3 : ascii) : bool :=
  let n1 := N_of_ascii c1 in
  let n2 := N_of_ascii c2 in
  let n3 := N_of_ascii c3 in
  ((n1 =? 225) && (n2 =? 154) && (n3 =? 128)
   || (n1 =? 226) && (n2 =? 128)
      && ((128 <=? n3) && (n3 <=? 138) || (n3 =? 168) || (n3 =? 169) || (n3 =? 175))
   || (n1 =? 226) && (n2 =? 129) && (n3 =? 159)
   || (n1 =? 227) && (n2 =? 128) && (n3 =? 128)
   || (n1 =? 239) && (n2 =? 187) && (n3 =? 191))%N.

(** One white space character off the front of [s], if it starts with one. *)
Definition strip_space (s : string) : option string :=
  match s with
  | EmptyString => None
  | String c1 rest1 =>
      if is_whitespace c1 then Some rest1
      else match rest1 with
           | EmptyString => None
           | String c2 rest2 =>
               if is_whitespace2 c1 c2 then Some rest2
               else match rest2 with
                    | EmptyString => None
                    | String c3 rest3 =>
                        if is_whitespace3 c1 c2 c3 then Some rest3 else None
                    end
           end
  end.

Fixpoint trimStart (s : string) : string :=
  match s with
  | EmptyString => EmptyString
  | String c1 rest1 =>
      if is_whitespace c1 then trimStart rest1
      else match rest1 with
           | EmptyString => s
           | String c2 rest2 =>
               if is_whitespace2 c1 c2 then trimStart rest2
               else match rest2 with
                    | EmptyString => s
                    | String c3 rest3 =>
                        if is_whitespace3 c1 c2 c3 then trimStart rest3 else s
                    end
           end
  end.

(** [s] is white space from end to end. *)
Fixpoint all_space (s : string) : bool :=
  match s with
  | EmptyString => true
  | String c1 rest1 =>
      if is_whitespace c1 then all_space rest1
      else match rest1 with
           | EmptyString => false
           | String c2 rest2 =>
               if is_whitespace2 c1 c2 then all_space rest2
               else match rest2 with
                    | EmptyString => false
                    | String c3 rest3 =>
                        if is_whitespace3 c1 c2 c3 then all_space rest3 else false
                    end
           end
  end.

(** The shortest prefix of [s] that is followed by white space only. *)
Fixpoint trimEnd (s : string) : string :=
  match s with
  | EmptyString => EmptyString
  | String c s' => if all_space s then EmptyString else String c (trimEnd s')
  end.

Definition trim (s : string) : string := trimEnd (trimStart s).

(** [error.response?.data?.detail || fallback]: the empty string is falsy. *)
Definition detail_or (fallback : string) (error : JsError) : string :=
  match detail error with
  | Some d => if decide (d = "") then fallback else d
  | None => fallback
  end.

(** [handleSendMessage], run with the response of [api.sendChatMessage]. *)
Definition handleSendMessage (response : JsError + unit) : Handler unit :=
  s ← get;
  match selectedContact s with
  | Some selected =>
      if bool_decide (trim (inputMessage s) = "") || sending s then ret tt
      else
        setSending true;;
        let messageText := trim (inputMessage s) in
        try_finally
          (try_catch
             (result ← await (PostChatSend (type selected) (id selected) messageText)
                              response;
              emit (ConsoleLog "Message sent successfully:");;
              setInputMessage "";;
              emit (SetTimeout (LoadMessages selected false) 300))
             (λ error,
                emit (ConsoleError "Send message error:");;
                emit (Alert (detail_or "发送失败" error))))
          (setSending false)
  | None => ret tt
  end.

(** ** Events *)

(** What happens to the page: responses of the backend settling, and the
    user's clicks and key strokes. *)
Inductive Event : Type :=
  | ContactsLoaded (response : JsError + (list DirEntry * list DirEntry))
  | PollTick (response : JsError + list LogMsg) (now : Z)
  | ContactClick (contact : Contact)
  | BackClick
  | ThreadFetched (contact : Contact) (showLoading : bool)
                  (response : JsError + list Message)
  | InputChange (text : string)
  | SendClick (response : JsError + unit).

Definition handle (ev : Event) : Handler unit :=
  match ev with
  | ContactsLoaded response => loadContacts response
  | PollTick response now => checkNewMessages response now
  | ContactClick contact => onContactClick contact
  | BackClick => onBackClick
  | ThreadFetched contact showLoading response => loadMessages contact showLoading response
  | InputChange text => setInputMessage text
  | SendClick response => handleSendMessage response
  end.

Fixpoint handleAll (evs : list Event) : Handler unit :=
  match evs with
  | [] => ret tt
  | ev :: evs' => handle ev;; handleAll evs'
  end.

(** The state after the first render of the page at time [now]. *)
Definition mount (now : Z) : ChatState :=
  {| contacts := []; selectedContact := None; messages := []; inputMessage := "";
     loading := true; sending := false; unreadCounts := ∅;
     lastCheckedTime := now; viewedChats := ∅; prevMessagesLength := 0;
     capturedLastCheckedTime := now |}.

Definition state_after {A} (r : Outcome A * ChatState * list Effect) : ChatState := r.1.2.
Definition effects_of {A} (r : Outcome A * ChatState * list Effect) : list Effect := r.2.
Definition outcome_of {A} (r : Outcome A * ChatState * list Effect) : Outcome A := r.1.1.

(** The state reached from [s] by a sequence of events. *)
Definition run (evs : list Event) (s : ChatState) : ChatState :=
  state_after (handleAll evs s).

(** ** Vocabulary of the properties *)

(** [a] may stand before [b] in a list sorted by descending key. *)
Definition key_ge {A : Type} (key : A → Z) (a b : A) : Prop := key b ≤ key a.

(** Comparators of the shape [(a, b) => key(b) - key(a)]: descending keys. *)
Definition by_key_desc {A : Type} (key : A → Z) : A → A → Z := λ a b, key b - key a.

(** The key the contact list is sorted by: [lastMessageTime || 0]. *)
Definition sortTime (c : Contact) : Z := or_zero (lastMessageTime c).

(** Whether the poll counts [msg] as unread for [key]. *)
Definition isCounted (viewed : gset string) (selected : option Contact)
    (key : string) (msg : LogMsg) : bool :=
  negb (is_system msg || is_self msg)
  && bool_decide (msgKey msg = key)
  && bool_decide (key ∉ viewed)
  && bool_decide (contactKey <$> selected ≠ Some key).


(** The unread count as the specification words it: the cursor is
    [lastCheckedTime], moved to the time of every successful poll; a message
    counts when it is not from the bot itself, not a system event, newer than
    the cursor of the tick that sees it, and its key not yet viewed; selecting
    the key clears its count. *)
Definition spec_counts (cursor : Z) (viewed : gset string) (key : string)
    (msg : LogMsg) : bool :=
  negb (is_self msg) && negb (is_system msg)
  && bool_decide (msgKey msg = key)
  && js_gt (msgTime msg) cursor
  && bool_decide (key ∉ viewed).

Fixpoint spec_unread_count (key : string) (cursor : Z) (viewed : gset string)
    (count : nat) (evs : list Event) : nat :=
  match evs with
  | [] => count
  | PollTick (inr allMessages) now :: evs' =>
      spec_unread_count key now viewed
        (count + length (filter (λ msg, spec_counts cursor viewed key msg = true)
                                allMessages))%nat
        evs'
  | ContactClick contact :: evs' =>
      spec_unread_count key cursor (viewed ∪ {[ contactKey contact ]})
        (if decide (contactKey contact = key) then 0%nat else count) evs'
  | _ :: evs' => spec_unread_count key cursor viewed count evs'
  end.

(** The classification of a thread update as the specification words it. *)
Inductive ScrollClass : Type := initial | grown | unchanged.

Definition spec_classify (previousLength newLength : nat) : ScrollClass :=
  if bool_decide (previousLength = 0 ∧ 0 < newLength)%nat then initial
  else if bool_decide (previousLength < newLength ∧ 0 < previousLength)%nat then grown
  else unchanged.

(** [initial] is a jump, [grown] an animated scroll, [unchanged] no call. *)
Definition scroll_call (c : ScrollClass) : option ScrollArg :=
  match c with
  | initial => Some instant
  | grown => Some smooth
  | unchanged => None
  end.



(** The scroll requests among the effects of a run. *)
Definition scrollCalls (fx : list Effect) : list ScrollBehavior :=
  omap (λ e, match e with ScrollIntoView b => Some b | _ => None end) fx.



(** A thread message. *)
Definition thread_msg (n : string) : Message :=
  {| m_id := n; m_timestamp := "2024-01-01T00:00:00"; m_user_id := "7";
     m_message := "text"; m_is_self := false |}.

(** ** Scenarios *)

(** A message of user 7 in group 100, stamped [t] milliseconds. *)
Definition group100_msg (t : Z) (text : string) : LogMsg :=
  {| timestamp := Some (Num t); time := None; message_type := "group";
     user_id := IdString "7"; group_id := Some (IdString "100"); is_self := false;
     is_system := false; message := Some text |}.

(** A private message of user 7. *)
Definition private7_msg (t : Z) (text : string) : LogMsg :=
  {| timestamp := Some (Num t); time := None; message_type := "private";
     user_id := IdString "7"; group_id := None; is_self := false;
     is_system := false; message := Some text |}.

(** A directory of one group and one friend. *)
Definition directory : list DirEntry * list DirEntry :=
  ([ {| d_id := "100"; d_name := "Group"; d_avatar := "g.png";
        d_member_count := Some 3%nat; d_max_member_count := Some 200%nat;
        d_remark := None |} ],
   [ {| d_id := "7"; d_name := "Friend"; d_avatar := "f.png";
        d_member_count := None; d_max_member_count := None;
        d_remark := None |} ]).

(** Scenario D: a contact with no message yet and two with a last message. *)
Definition contactA : Contact :=
  {| id := "1"; name := "A"; avatar := "a.png"; type := private;
     lastMessage := None; lastMessageTime := None; unread := None;
     member_count := None; max_member_count := None; remark := None |}.

Definition contactB : Contact :=
  {| id := "2"; name := "B"; avatar := "b.png"; type := private;
     lastMessage := Some "b"; lastMessageTime := Some (Num 100); unread := Some 0%nat;
     member_count := None; max_member_count := None; remark := None |}.

Definition contactC : Contact :=
  {| id := "3"; name := "C"; avatar := "c.png"; type := private;
     lastMessage := Some "c"; lastMessageTime := Some (Num 200); unread := Some 0%nat;
     member_count := None; max_member_count := None; remark := None |}.

(** The same three contacts as the directory delivers them, and a window
    that holds the messages of C and B, newest first. *)
Definition fresh (c : Contact) : Contact :=
  {| id := id c; name := name c; avatar := avatar c; type := type c;
     lastMessage := None; lastMessageTime := None; unread := None;
     member_count := member_count c; max_member_count := max_member_count c;
     remark := remark c |}.

Definition private_msg (user : string) (t : Z) (text : string) : LogMsg :=
  {| timestamp := Some (Num t); time := None; message_type := "private";
     user_id := IdString user; group_id := None; is_self := false;
     is_system := false; message := Some text |}.

Definition windowD : list LogMsg := [private_msg "3" 200 "c"; private_msg "2" 100 "b"].

(** A message the bot itself sent to group 100. *)
Definition group100_self_msg (t : Z) (text : string) : LogMsg :=
  {| timestamp := Some (Num t); time := None; message_type := "group";
     user_id := IdString "1"; group_id := Some (IdString "100"); is_self := true;
     is_system := false; message := Some text |}.

(** The group of the directory, as a contact. *)
Definition group100 : Contact :=
  {| id := "100"; name := "Group"; avatar := "g.png"; type := group;
     lastMessage := None; lastMessageTime := None; unread := None;
     member_count := Some 3%nat; max_member_count := Some 200%nat;
     remark := None |}.

(** Events that are not the arrival of a thread fetch. *)
Definition notThreadFetched (ev : Event) : bool :=
  match ev with
  | ThreadFetched _ _ _ => false
  | _ => true
  end.

(** A poll tick as an event, from the pair of its response and its clock. *)
Definition pollTick (p : (JsError + list LogMsg) * Z) : Event := PollTick p.1 p.2.

(** ** Vocabulary of the further properties *)

(** What identifies a contact and never changes with a poll. *)
Definition contactIdentity (c : Contact) : ContactType * string * string * string :=
  (type c, id c, name c, avatar c).


(** White space at the start of a string, and at its end. *)
Definition starts_with_space (s : string) : bool :=
  match strip_space s with
  | Some _ => true
  | None => false
  end.

Fixpoint ends_with_space (s : string) : bool :=
  match s with
  | EmptyString => false
  | String c s' => bool_decide (strip_space s = Some "") || ends_with_space s'
  end.

(** ** What the page renders *)

(** [String.prototype.includes]: [sub] occurs somewhere in [s]. *)
Fixpoint includes (sub s : string) : bool :=
  String.prefix sub s
  || match s with
     | EmptyString => false
     | String _ s' => includes sub s'
     end.

(** [filterType: 'all' | 'group' | 'private'] *)
Inductive FilterType : Type := filter_all | filter_group | filter_private.

(** [filterType === 'all' || contact.type === filterType] *)
Definition matchesType (filterType : FilterType) (contact : Contact) : bool :=
  match filterType with
  | filter_all => true
  | filter_group => bool_decide (type contact = group)
  | filter_private => bool_decide (type contact = private)
  end.

Section search.
(** [String.prototype.toLowerCase], whose table of letters is the
    browser's. *)
Variable toLowerCase : string → string.

(** [filteredContacts]: the rows of the contact list that are shown. *)
Definition filteredContacts (searchQuery : string) (filterType : FilterType)
    (contacts : list Contact) : list Contact :=
  filter (λ contact,
            let matchesSearch :=
              includes (toLowerCase searchQuery) (toLowerCase (name contact)) in
            matchesSearch && matchesType filterType contact = true)
         contacts.
End search.

(** A string in a condition: the empty string and a missing one are falsy. *)
Definition truthy (x : option string) : option string :=
  match x with
  | Some s => if decide (s = "") then None else Some s
  | None => None
  end.

(** The line under the name in a row of the contact list: the preview, or
    for a group its number of members, or the remark, or the id. *)
Definition rowPreview (contact : Contact) : string :=
  match truthy (lastMessage contact) with
  | Some preview => preview
  | None =>
      match type contact, member_count contact with
      | group, Some (S n) => pretty (S n) +:+ " 人"
      | _, _ =>
          match truthy (remark contact) with
          | Some r => r
          | None => "ID: " +:+ id contact
          end
      end
  end.

(** The badge over the avatar: nothing for a count of 0, [99+] above 99. *)
Definition badge (unreadCount : nat) : option string :=
  if (0 <? unreadCount)%nat
  then Some (if (99 <? unreadCount)%nat then "99+" else pretty unreadCount)
  else None.

Section formatTime.
(** [date.toLocaleTimeString('zh-CN', ...)] and
    [date.toLocaleDateString('zh-CN', ...)], which are the browser's. *)
Variable toLocaleTimeString : jsnum → string.
Variable toLocaleDateString : jsnum → string.

(** [formatTime], given [now.getTime()] and [date.getTime()]. With an
    invalid date the difference is [NaN] and every comparison fails. *)
Definition formatTime (now : Z) (date : jsnum) : string :=
  match date with
  | NaN => toLocaleDateString date
  | Num d =>
      let diff := now - d in
      if diff <? 60000 then "刚刚"
      else if diff <? 3600000 then pretty (diff / 60000) +:+ "分钟前"
      else if diff <? 86400000 then toLocaleTimeString date
      else toLocaleDateString date
  end.
End formatTime.

(** A lower-casing of the ASCII letters, to run [filteredContacts] with. *)
Definition ascii_lower (c : ascii) : ascii :=
  let n := nat_of_ascii c in
  if ((65 <=? n) && (n <=? 90))%nat then ascii_of_nat (n + 32) else c.

Fixpoint ascii_toLowerCase (s : string) : string :=
  match s with
  | EmptyString => EmptyString
  | String c s' => String (ascii_lower c) (ascii_toLowerCase s')
  end.

(** ** The API client, the session store and the language
    ([webui/src/utils/api.ts], the auth store, [i18n], [Layout]) *)

Module Api.

(** What the client touches of the browser: [localStorage] and
    [window.location.href]. *)
Record Browser : Type := mkBrowser {
  localStorage : gmap string string;
  href : string
}.

Definition getItem (key : string) (b : Browser) : option string :=
  localStorage b !! key.
Definition setItem (key value : string) (b : Browser) : Browser :=
  mkBrowser (<[key := value]> (localStorage b)) (href b).
Definition removeItem (key : string) (b : Browser) : Browser :=
  mkBrowser (delete key (localStorage b)) (href b).
Definition set_href (target : string) (b : Browser) : Browser :=
  mkBrowser (localStorage b) target.

(** A rejected request; [status] is [error.response?.status], missing when
    no response arrived. *)
Record AxiosError : Type := mkAxiosError {
  status : option nat
}.

(** A request as it leaves the client. *)
Record Config : Type := mkConfig {
  method : string;
  url : string;
  headers : gmap string string
}.

(** The request interceptor: the stored token, when there is one and it is
    not empty, goes into the [Authorization] header. *)
Definition requestInterceptor (b : Browser) (config : Config) : Config :=
  match getItem "access_token" b with
  | Some token =>
      if decide (token = "") then config
      else mkConfig (method config) (url config)
                    (<["Authorization" := "Bearer " +:+ token]> (headers config))
  | None => config
  end.

(** The response interceptor on an error: a 401 removes the token and sends
    the browser to the login page; the error is rejected again in any case. *)
Definition responseError (error : AxiosError) (b : Browser) : Browser :=
  if decide (status error = Some 401%nat)
  then set_href "/login" (removeItem "access_token" b)
  else b.

(** [this.client.get] and [this.client.post], given the server's answer:
    the result, the browser afterwards and the request that was sent. *)
Definition request {A : Type} (method url : string) (answer : AxiosError + A)
    (b : Browser) : (AxiosError + A) * Browser * Config :=
  let config :=
    requestInterceptor b
      (mkConfig method url {[ "Content-Type" := "application/json" ]}) in
  match answer with
  | inl error => (inl error, responseError error b, config)
  | inr response => (inr response, b, config)
  end.

(** [interface LoginResponse] *)
Record LoginResponse : Type := mkLoginResponse {
  access_token : string;
  token_type : string
}.

(** [api.login] *)
Definition login (answer : AxiosError + LoginResponse) (b : Browser)
    : (AxiosError + LoginResponse) * Browser * Config :=
  match request "POST" "/auth/login" answer b with
  | (inr data, b1, config) =>
      (inr data,
       if decide (access_token data = "") then b1
       else setItem "access_token" (access_token data) b1,
       config)
  | (inl error, b1, config) => (inl error, b1, config)
  end.

(** [api.logout]: the token is removed once the server has answered. *)
Definition logout (answer : AxiosError + unit) (b : Browser)
    : (AxiosError + unit) * Browser * Config :=
  match request "POST" "/auth/logout" answer b with
  | (inr _, b1, config) => (inr tt, removeItem "access_token" b1, config)
  | (inl error, b1, config) => (inl error, b1, config)
  end.

(** [api.getCurrentUser]; the user object is carried as its JSON text. *)
Definition getCurrentUser (answer : AxiosError + string) (b : Browser)
    : (AxiosError + string) * Browser * Config :=
  request "GET" "/auth/me" answer b.

End Api.

Module AuthStore.
Import Api.

(** The state of the store: [user], [token], [isAuthenticated]. *)
Record AuthState : Type := mkAuthState {
  user : option string;
  token : option string;
  isAuthenticated : bool
}.

Definition signedOut : AuthState :=
  {| user := None; token := None; isAuthenticated := false |}.

(** [!!token] *)
Definition present (x : option string) : bool :=
  match x with
  | Some s => bool_decide (s ≠ "")
  | None => false
  end.

(** [getInitialState], in a browser: what a page load makes of the storage. *)
Definition getInitialState (b : Browser) : AuthState :=
  {| user := if present (getItem "user" b) then getItem "user" b else None;
     token := getItem "access_token" b;
     isAuthenticated := present (getItem "access_token" b) |}.

(** The outcome of a store action: whether its promise rejected, the browser
    and the store afterwards, the requests sent and the lines logged. *)
Record Done : Type := mkDone {
  rejected : option AxiosError;
  browser : Browser;
  store : AuthState;
  sent : list Config;
  logged : list string
}.

(** [login], given the answers to [/auth/login] and to [/auth/me]. *)
Definition login (loginAnswer : AxiosError + LoginResponse)
    (meAnswer : AxiosError + string) (b : Browser) (st : AuthState) : Done :=
  match Api.login loginAnswer b with
  | (inl error, b1, c1) => mkDone (Some error) b1 st [c1] []
  | (inr response, b1, c1) =>
      let token := access_token response in
      let b2 := setItem "access_token" token b1 in
      match getCurrentUser meAnswer b2 with
      | (inl error, b3, c2) => mkDone (Some error) b3 st [c1; c2] []
      | (inr user, b3, c2) =>
          mkDone None (setItem "user" user b3)
                 {| user := Some user; token := Some token; isAuthenticated := true |}
                 [c1; c2] []
      end
  end.

(** [logout], given the answer to [/auth/logout]. *)
Definition logout (answer : AxiosError + unit) (b : Browser) (st : AuthState) : Done :=
  match Api.logout answer b with
  | (result, b1, c1) =>
      mkDone None
             (removeItem "user" (removeItem "access_token" b1))
             signedOut [c1]
             (match result with
              | inl _ => ["Logout error:"]
              | inr _ => []
              end)
  end.

(** [checkAuth], given the answer to [/auth/me] if it is asked. *)
Definition checkAuth (meAnswer : AxiosError + string) (b : Browser)
    (st : AuthState) : Done :=
  if present (getItem "access_token" b) then
    match getCurrentUser meAnswer b with
    | (inr user, b1, c1) =>
        mkDone None (setItem "user" user b1)
               {| user := Some user; token := getItem "access_token" b;
                  isAuthenticated := true |}
               [c1] []
    | (inl _, b1, c1) =>
        mkDone None (removeItem "user" (removeItem "access_token" b1))
               signedOut [c1] []
    end
  else mkDone None b signedOut [] [].

End AuthStore.

Module I18n.
Import Api.

(** [getLanguage], given the storage, or [None] when reading it throws or
    there is no window. *)
Definition getLanguage (storage : option Browser) : string :=
  match storage with
  | Some b =>
      match getItem "language" b with
      | Some lang =>
          if bool_decide (lang = "en") || bool_decide (lang = "zh") then lang else "zh"
      | None => "zh"
      end
  | None => "zh"
  end.

(** [toggleLanguage] of [Layout], on the current [i18n.language]: the new
    language is stored and becomes the language of [i18n]. *)
Definition toggleLanguage (language : string) (b : Browser) : string * Browser :=
  let newLang := if decide (language = "zh") then "en" else "zh" in
  (newLang, setItem "language" newLang b).

End I18n.

(** ** The chat page in its browser *)

(** The error of a rejected request is one object: the response interceptor
    of the client reads its status, the [catch] of the handler its detail. *)
Record Rejection : Type := mkRejection {
  seen_by_client : Api.AxiosError;
  seen_by_handler : JsError
}.

(** The chat page as the browser runs it: the component, the storage and
    location the api client works on, and the interval of the poll effect
    with its period. The effect installs the interval when it runs (at the
    mount, and again at once after its cleanup when the selection changes);
    nothing in [checkNewMessages] clears it; it goes with the page when the
    browser is sent to another document. *)
Record PageState : Type := mkPageState {
  chat : ChatState;
  browser : Api.Browser;
  pollInterval : option nat
}.

(** The page just mounted: [setInterval(checkNewMessages, 3000)]. *)
Definition mountPage (now : Z) (b : Api.Browser) : PageState :=
  {| chat := mount now; browser := b; pollInterval := Some 3000%nat |}.

(** What one firing of the interval does. *)
Record Fired : Type := mkFired {
  fired_outcome : Outcome unit;
  fired_page : PageState;
  fired_effects : list Effect;
  fired_request : option Api.Config
}.

(** The response interceptor assigns [window.location.href] on a 401, which
    unloads the page. *)
Definition unloads {A : Type} (answer : Rejection + A) : bool :=
  match answer with
  | inl r => bool_decide (Api.status (seen_by_client r) = Some 401%nat)
  | inr _ => false
  end.

(** One firing of the poll interval, given the server's answer: with no
    interval nothing fires; otherwise [api.getMessageLog(50)] goes through
    the client and its interceptors, and [checkNewMessages] goes on with the
    response or the rejection. *)
Definition pollTickPage (answer : Rejection + list LogMsg) (now : Z)
    (p : PageState) : Fired :=
  match pollInterval p with
  | None => mkFired (Returned tt) p [] None
  | Some period =>
      let sent :=
        Api.request "GET" "/messages/log"
          (match answer with
           | inl r => inl (seen_by_client r)
           | inr allMessages => inr allMessages
           end)
          (browser p) in
      let handled :=
        checkNewMessages
          (match answer with
           | inl r => inl (seen_by_handler r)
           | inr allMessages => inr allMessages
           end)
          now (chat p) in
      mkFired (outcome_of handled)
              {| chat := state_after handled;
                 browser := sent.1.2;
                 pollInterval := if unloads answer then None else Some period |}
              (effects_of handled)
              (Some sent.2)
  end.

(** * Properties *)

(** ** The stable sort *)

Section array_sort_facts.
Context {A : Type} (key : A → Z).

Lemma sort_insert_perm x l : sort_insert (by_key_desc key) x l ≡ₚ x :: l.
Proof.
  induction l as [|y l IH]; simpl; [done|].
  destruct (0 <? (by_key_desc key) x y); [|done].
  rewrite IH. apply Permutation_swap.
Qed.

Lemma array_sort_perm l : array_sort (by_key_desc key) l ≡ₚ l.
Proof.
  induction l as [|x l IH]; simpl; [done|].
  by rewrite sort_insert_perm, IH.
Qed.

Lemma sort_insert_sorted x l :
  StronglySorted (key_ge key) l → StronglySorted (key_ge key) (sort_insert (by_key_desc key) x l).
Proof.
  induction l as [|y l IH]; intros Hs; simpl.
  - repeat constructor.
  - apply StronglySorted_inv in Hs as [Hl Hy].
    destruct (0 <? (by_key_desc key) x y) eqn:Hc.
    + apply Z.ltb_lt in Hc. constructor; [by apply IH|].
      rewrite sort_insert_perm. constructor; [|done].
      unfold key_ge, by_key_desc in *. lia.
    + apply Z.ltb_ge in Hc. constructor; [by constructor|].
      constructor; [unfold key_ge, by_key_desc in *; lia|].
      eapply Forall_impl; [exact Hy|].
      intros z Hz. unfold key_ge, by_key_desc in *. lia.
Qed.

Lemma array_sort_sorted l : StronglySorted (key_ge key) (array_sort (by_key_desc key) l).
Proof.
  induction l as [|x l IH]; simpl; [constructor|].
  by apply sort_insert_sorted.
Qed.

(** Stability: the elements of any one key keep their order. *)
Lemma sort_insert_stable k x l :
  filter (λ a, key a = k) (sort_insert (by_key_desc key) x l)
  = filter (λ a, key a = k) (x :: l).
Proof.
  induction l as [|y l IH]; simpl; [done|].
  destruct (0 <? (by_key_desc key) x y) eqn:Hc; [|done].
  apply Z.ltb_lt in Hc. unfold by_key_desc in Hc.
  rewrite !filter_cons in *.
  destruct (decide (key y = k)), (decide (key x = k)); try lia.
  - by rewrite IH.
  - by rewrite IH.
  - by rewrite IH.
Qed.

Lemma array_sort_stable k l :
  filter (λ a, key a = k) (array_sort (by_key_desc key) l) = filter (λ a, key a = k) l.
Proof.
  induction l as [|x l IH]; simpl; [done|].
  rewrite sort_insert_stable, !filter_cons. by rewrite IH.
Qed.

(** A list that is already in order is left as it is. *)
Lemma sort_insert_head x l :
  Forall (key_ge key x) l → sort_insert (by_key_desc key) x l = x :: l.
Proof.
  destruct l as [|y l]; simpl; [done|].
  intros Hx. apply Forall_cons in Hx as [Hy _].
  unfold key_ge, by_key_desc in *.
  destruct (0 <? key y - key x) eqn:Hc; [|done].
  apply Z.ltb_lt in Hc. lia.
Qed.

Lemma array_sort_sorted_id l :
  StronglySorted (key_ge key) l → array_sort (by_key_desc key) l = l.
Proof.
  induction 1 as [|x l Hl IH Hx]; simpl; [done|].
  rewrite IH. by apply sort_insert_head.
Qed.

Lemma array_sort_idemp l :
  array_sort (by_key_desc key) (array_sort (by_key_desc key) l) = array_sort (by_key_desc key) l.
Proof. apply array_sort_sorted_id, array_sort_sorted. Qed.

(** The result of a stable sort is determined: two lists in descending
    order that agree on the sublist of every key are equal. *)
Lemma stable_sorted_unique l1 l2 :
  StronglySorted (key_ge key) l1 → StronglySorted (key_ge key) l2 →
  (∀ k, filter (λ a, key a = k) l1 = filter (λ a, key a = k) l2) →
  l1 = l2.
Proof.
  intros Hs1. revert l2.
  induction Hs1 as [|x l1 Hl1 IH Hx]; intros l2 Hs2 Hf.
  - destruct l2 as [|y l2]; [done|].
    specialize (Hf (key y)). rewrite filter_cons in Hf.
    by destruct (decide (key y = key y)).
  - destruct Hs2 as [|y l2 Hl2 Hy].
    + specialize (Hf (key x)). rewrite filter_cons in Hf.
      by destruct (decide (key x = key x)).
    + assert (key x = key y) as Hk.
      { assert (x ∈ y :: l2) as Hin2.
        { eapply (proj1 (list_elem_of_filter (λ a, key a = key x) _ _)).
          rewrite <- Hf, filter_cons. destruct (decide (key x = key x)); [|done].
          left. }
        assert (y ∈ x :: l1) as Hin1.
        { eapply (proj1 (list_elem_of_filter (λ a, key a = key y) _ _)).
          rewrite Hf, filter_cons. destruct (decide (key y = key y)); [|done].
          left. }
        rewrite Forall_forall in Hx, Hy. unfold key_ge in *.
        apply elem_of_cons in Hin1 as [->|Hin1]; [done|].
        apply elem_of_cons in Hin2 as [->|Hin2]; [done|].
        specialize (Hx _ Hin1). specialize (Hy _ Hin2). lia. }
      pose proof (Hf (key x)) as Hf0. rewrite !filter_cons in Hf0.
      destruct (decide (key x = key x)); [|done].
      destruct (decide (key y = key x)); [|congruence].
      injection Hf0 as -> Hf0. f_equal. apply IH; [done|].
      intros k. specialize (Hf k). rewrite !filter_cons in Hf.
      destruct (decide (key y = k)); [|done]. by injection Hf.
Qed.

(** So [array_sort] is the only function that returns, in descending
    order, the input with the elements of equal key in their old order. *)
Lemma array_sort_determined l l' :
  StronglySorted (key_ge key) l' →
  (∀ k, filter (λ a, key a = k) l' = filter (λ a, key a = k) l) →
  l' = array_sort (by_key_desc key) l.
Proof.
  intros Hs Hf. apply stable_sorted_unique; [done|apply array_sort_sorted|].
  intros k. by rewrite array_sort_stable.
Qed.
End array_sort_facts.

(** ** Unread counting *)

Lemma countMessage_lookup viewed selected (acc : gmap string nat) msg key :
count_or_zero (countMessage viewed selected acc msg !! key)
= (count_or_zero (acc !! key)
   + if isCounted viewed selected key msg then 1 else 0)%nat.
Proof.
unfold countMessage, isCounted.
destruct (is_system msg || is_self msg); simpl; [lia|].
destruct (decide (msgKey msg ∈ viewed)) as [Hv|Hv].
{ destruct (bool_decide_reflect (msgKey msg = key)) as [<-|]; simpl; [|lia].
  rewrite bool_decide_eq_false_2 by (by intros []). simpl. lia. }
destruct (decide (msgKey msg = key)) as [<-|Hne].
- rewrite bool_decide_eq_true_2 by done.
  rewrite (bool_decide_eq_true_2 (msgKey msg ∉ viewed)) by done. simpl.
  destruct selected as [sel|]; simpl.
  + destruct (decide (msgKey msg = contactKey sel)) as [He|He].
    * rewrite bool_decide_eq_false_2 by (intros []; congruence). lia.
    * rewrite bool_decide_eq_true_2 by congruence.
      rewrite lookup_insert_eq. simpl. lia.
  + rewrite lookup_insert_eq. simpl. lia.
- rewrite (bool_decide_eq_false_2 (msgKey msg = key)) by done. simpl.
  destruct selected as [sel|]; simpl.
  + destruct (decide (msgKey msg = contactKey sel)); [lia|].
    rewrite lookup_insert_ne by done. lia.
  + rewrite lookup_insert_ne by done. lia.
Qed.

Lemma foldl_countMessage_lookup viewed selected (acc : gmap string nat) l key :
count_or_zero (foldl (countMessage viewed selected) acc l !! key)
= (count_or_zero (acc !! key)
   + length (filter (λ msg, isCounted viewed selected key msg = true) l))%nat.
Proof.
revert acc. induction l as [|msg l IH]; intros acc; simpl; [lia|].
rewrite IH, countMessage_lookup, filter_cons.
destruct (isCounted viewed selected key msg); simpl.
- destruct (decide (true = true)); [simpl; lia|done].
- destruct (decide (false = true)); [done|lia].
Qed.

(** The tick's count for a key is the number of the window's messages that
  are newer than the cursor and counted for the key. *)
Lemma newUnreadCounts_lookup cursor viewed selected allMessages key :
count_or_zero (newUnreadCounts cursor viewed selected allMessages !! key)
= length (filter (λ msg, isCounted viewed selected key msg = true)
                 (newMessagesOnly cursor allMessages)).
Proof.
unfold newUnreadCounts. rewrite foldl_countMessage_lookup.
by rewrite lookup_empty.
Qed.

(** The merge adds the tick's count to the previous count, key by key. *)
Lemma mergeCounts_lookup (new prev : gmap string nat) key :
count_or_zero (mergeCounts new prev !! key)
= (count_or_zero (prev !! key) + count_or_zero (new !! key))%nat.
Proof.
unfold mergeCounts. revert key.
apply (map_fold_weak_ind
  (λ merged (m : gmap string nat), ∀ key,
     count_or_zero (merged !! key)
     = (count_or_zero (prev !! key) + count_or_zero (m !! key))%nat)).
- intros key. rewrite lookup_empty. simpl. lia.
- intros i x m r Hi IH key.
  destruct (decide (i = key)) as [->|Hne].
  + rewrite !lookup_insert_eq. simpl. rewrite IH, Hi. simpl. lia.
  + rewrite !lookup_insert_ne by done. apply IH.
Qed.

(** A successful tick, step by step. *)
Lemma checkNewMessages_success allMessages now s :
checkNewMessages (inr allMessages) now s
= let counts := newUnreadCounts (capturedLastCheckedTime s) (viewedChats s)
                                (selectedContact s) allMessages in
  (Returned tt,
   set_contacts (reconcileContacts allMessages counts)
     (set_lastCheckedTime now (set_unreadCounts (mergeCounts counts) s)),
   [Request (GetMessageLog 50)]).
Proof. reflexivity. Qed.

(** A failed tick. *)
Lemma checkNewMessages_failure error now s :
checkNewMessages (inl error) now s
= (Returned tt, s,
   [Request (GetMessageLog 50); ConsoleError "Failed to check new messages:"]).
Proof. reflexivity. Qed.

Lemma handleAll_cons ev evs s :
handleAll (ev :: evs) s
= match handle ev s with
  | (Returned _, s1, fx1) =>
      match handleAll evs s1 with
      | (r, s2, fx2) => (r, s2, fx1 ++ fx2)
      end
  | (Thrown e, s1, fx1) => (Thrown e, s1, fx1)
  end.
Proof. reflexivity. Qed.

(** Counts accumulate: a successful tick adds to the previous count of every
  key the number of window messages it counts for the key. *)
Lemma tick_adds_to_count allMessages now s key :
unreadCount (state_after (checkNewMessages (inr allMessages) now s)) key
= (unreadCount s key
   + length (filter (λ msg, isCounted (viewedChats s) (selectedContact s) key msg = true)
                    (newMessagesOnly (capturedLastCheckedTime s) allMessages)))%nat.
Proof.
rewrite checkNewMessages_success. unfold unreadCount, state_after. simpl.
by rewrite mergeCounts_lookup, newUnreadCounts_lookup.
Qed.

(** The cursor read by the poll does not move with the tick: the closure
  keeps the [lastCheckedTime] of the render that installed it. *)
Lemma tick_keeps_captured_cursor response now s :
capturedLastCheckedTime (state_after (checkNewMessages response now s))
= capturedLastCheckedTime s
∧ viewedChats (state_after (checkNewMessages response now s)) = viewedChats s
∧ selectedContact (state_after (checkNewMessages response now s)) = selectedContact s.
Proof. by destruct response. Qed.

(** Hence a window seen by two ticks is counted by both. *)
Lemma second_tick_counts_again allMessages now1 now2 s key :
unreadCount (run [PollTick (inr allMessages) now1; PollTick (inr allMessages) now2] s) key
= (unreadCount s key
   + 2 * length (filter (λ msg, isCounted (viewedChats s) (selectedContact s) key msg = true)
                        (newMessagesOnly (capturedLastCheckedTime s) allMessages)))%nat.
Proof.
unfold run. rewrite !handleAll_cons. simpl handle.
pose proof (tick_adds_to_count allMessages now1 s key) as H1.
pose proof (tick_keeps_captured_cursor (inr allMessages) now1 s) as (Hc & Hv & Hsel).
pose proof (tick_adds_to_count allMessages now2
              (state_after (checkNewMessages (inr allMessages) now1 s)) key) as H2.
rewrite Hc, Hv, Hsel, H1 in H2.
rewrite checkNewMessages_success in *. cbv zeta in *. unfold state_after in *.
simpl in *. rewrite H2. lia.
Qed.

(** ** Handlers never throw *)

Ltac unfold_handler :=
  unfold setMessages, setContacts, setSelectedContact, setInputMessage,
    setLoading, setSending, setUnreadCounts, setLastCheckedTime,
    pollEffect, threadEffect, await, when in *;
  unfold mbind, Handler_bind, mret, Handler_ret, bind, ret, get, modify, emit,
    throw, try_catch, try_finally in *.

Lemma scrollEffect_run s :
  scrollEffect s
  = (Returned tt, set_prevMessagesLength (length (messages s)) s,
     match selectedContact s,
           scrollDecision (length (messages s)) (prevMessagesLength s) with
     | Some _, Some instant => [ScrollIntoView behavior_auto]
     | Some _, Some smooth => [ScrollIntoView behavior_smooth]
     | _, _ => []
     end).
Proof.
  unfold scrollEffect, scrollToBottom. unfold_handler.
  destruct (scrollDecision _ _) as [[]|]; destruct (selectedContact s); done.
Qed.

Lemma handle_returns ev s : outcome_of (handle ev s) = Returned tt.
Proof.
  destruct ev as [r|r now|c| |c b r|text|r]; cbn [handle].
  - by destruct r.
  - by destruct r.
  - done.
  - done.
  - unfold loadMessages, outcome_of. unfold_handler.
    destruct b, r as [e|data]; simpl; try done; by rewrite scrollEffect_run.
  - done.
  - unfold handleSendMessage, outcome_of. unfold_handler.
    destruct (selectedContact s); [|done].
    destruct (bool_decide _ || sending s); [done|].
    by destruct r.
Qed.

Lemma run_cons ev evs s : run (ev :: evs) s = run evs (state_after (handle ev s)).
Proof.
  unfold run. rewrite handleAll_cons.
  pose proof (handle_returns ev s) as Hr. unfold outcome_of, state_after in *.
  destruct (handle ev s) as [[[[]|e] s1] fx1]; simpl in *; [|done].
  by destruct (handleAll evs s1) as [[r s2] fx2].
Qed.

Lemma run_nil s : run [] s = s.
Proof. reflexivity. Qed.

(** The page never throws into its host, whatever happens to it. *)
Lemma handleAll_returns evs s : outcome_of (handleAll evs s) = Returned tt.
Proof.
  revert s. induction evs as [|ev evs IH]; intros s; [done|].
  rewrite handleAll_cons.
  pose proof (handle_returns ev s) as Hr. unfold outcome_of in *.
  destruct (handle ev s) as [[[[]|e] s1] fx1]; simpl in *; [|done].
  specialize (IH s1). by destruct (handleAll evs s1) as [[r s2] fx2].
Qed.

(** ** Unread counts across events *)

Lemma isCounted_viewed viewed selected key msg :
  key ∈ viewed → isCounted viewed selected key msg = false.
Proof.
  intros Hv. unfold isCounted.
  rewrite (bool_decide_eq_false_2 (key ∉ viewed)) by (by intros []).
  by rewrite andb_false_r.
Qed.

Lemma filter_none {A} (f : A → bool) (l : list A) :
  (∀ x, f x = false) → filter (λ x, f x = true) l = [].
Proof.
  intros Hf. induction l as [|x l IH]; [done|].
  rewrite filter_cons, IH. destruct (decide (f x = true)) as [Hx|]; [|done].
  by rewrite Hf in Hx.
Qed.

(** What the thread loader leaves alone. *)
Lemma loadMessages_frame contact showLoading response s :
  let s' := state_after (loadMessages contact showLoading response s) in
  unreadCounts s' = unreadCounts s ∧ viewedChats s' = viewedChats s
  ∧ selectedContact s' = selectedContact s ∧ contacts s' = contacts s
  ∧ lastCheckedTime s' = lastCheckedTime s
  ∧ capturedLastCheckedTime s' = capturedLastCheckedTime s.
Proof.
  unfold loadMessages, state_after. unfold_handler.
  destruct showLoading, response as [e|data]; simpl; try done;
    by rewrite scrollEffect_run.
Qed.

(** What sending leaves alone. *)
Lemma handleSendMessage_frame response s :
  let s' := state_after (handleSendMessage response s) in
  unreadCounts s' = unreadCounts s ∧ viewedChats s' = viewedChats s
  ∧ selectedContact s' = selectedContact s ∧ contacts s' = contacts s
  ∧ messages s' = messages s ∧ prevMessagesLength s' = prevMessagesLength s.
Proof.
  unfold handleSendMessage, state_after. unfold_handler.
  destruct (selectedContact s) eqn:Hsel; [|done].
  destruct (bool_decide _ || sending s); [done|].
  by destruct response.
Qed.

(** Once a key is viewed its count, if zero, stays zero under every event. *)
Lemma viewed_key_stays_zero ev s key :
  key ∈ viewedChats s → unreadCount s key = 0%nat →
  key ∈ viewedChats (state_after (handle ev s))
  ∧ unreadCount (state_after (handle ev s)) key = 0%nat.
Proof.
  intros Hv H0.
  destruct ev as [r|r now|c| |c b r|text|r]; cbn [handle].
  - by destruct r.
  - destruct r as [e|allMessages]; [done|]. split.
    + by rewrite (proj1 (proj2 (tick_keeps_captured_cursor _ _ _))).
    + rewrite tick_adds_to_count, H0, filter_none; [done|].
      intros msg. by apply isCounted_viewed.
  - unfold state_after, unreadCount, onContactClick. unfold_handler. simpl. split.
    + set_solver.
    + unfold unreadCount in H0. rewrite lookup_delete.
      by destruct (decide (contactKey c = key)).
  - done.
  - pose proof (loadMessages_frame c b r s) as (Hu & Hw & _).
    unfold unreadCount. by rewrite Hu, Hw.
  - done.
  - pose proof (handleSendMessage_frame r s) as (Hu & Hw & _).
    unfold unreadCount. by rewrite Hu, Hw.
Qed.

(** C1. The unread count is not the at-most-once count the specification
    describes. The poll compares message times with the [lastCheckedTime] its
    closure captured when the selection last changed, not with the cursor
    the previous tick stored: a page mounted at time 1000 that polls at 4000
    and at 7000 and is shown, both times, the same message of group 100
    stamped 2000 has stored the cursor 4000 after the first tick and still
    counts the message at the second one. The badge reads 2 where the
    specified count is 1. *)
Theorem unread_counted_again_by_later_tick :
  let window := [group100_msg 2000 "hello"] in
  let ticks := [PollTick (inr window) 4000; PollTick (inr window) 7000] in
  lastCheckedTime (run [PollTick (inr window) 4000] (mount 1000)) = 4000
  ∧ unreadCount (run [PollTick (inr window) 4000] (mount 1000)) "group-100" = 1%nat
  ∧ unreadCount (run ticks (mount 1000)) "group-100" = 2%nat
  ∧ spec_unread_count "group-100" 1000 ∅ 0 ticks = 1%nat.
Proof. vm_compute. done. Qed.

(** C2. Clicking a conversation puts its unread count to 0 at once, whatever
    it was, marks the key viewed and selects the contact; and after any
    sequence of polls that follows, successful or not and whatever messages
    they deliver, the contact is still selected, the key still viewed and
    its count still 0. *)
Theorem select_clears_unread (s : ChatState) (contact : Contact)
    (polls : list ((JsError + list LogMsg) * Z)) :
  let key := contactKey contact in
  let selected := run [ContactClick contact] s in
  let later := run (pollTick <$> polls) selected in
  (unreadCount selected key = 0%nat
   ∧ key ∈ viewedChats selected
   ∧ selectedContact selected = Some contact)
  ∧ (unreadCount later key = 0%nat
     ∧ key ∈ viewedChats later
     ∧ selectedContact later = Some contact).
Proof.
  intros key selected later.
  assert (unreadCount selected key = 0%nat ∧ key ∈ viewedChats selected
          ∧ selectedContact selected = Some contact) as Hsel.
  { subst selected key. rewrite run_cons, run_nil. cbn [handle].
    unfold state_after, unreadCount, onContactClick. unfold_handler. simpl.
    rewrite lookup_delete_eq. split; [done|]. split; [set_solver|done]. }
  split; [done|]. subst later. revert Hsel. generalize selected. clear selected.
  induction polls as [|[response now] polls IH]; intros s0 (H0 & Hv & Hs).
  - by rewrite run_nil.
  - rewrite fmap_cons, run_cons. apply IH.
    destruct (viewed_key_stays_zero (pollTick (response, now)) s0 key Hv H0)
      as [Hv' H0'].
    split; [done|]. split; [done|].
    unfold pollTick. cbn [handle fst snd].
    by rewrite (proj2 (proj2 (tick_keeps_captured_cursor _ _ _))).
Qed.

(** C7. A firing of the poll interval whose request fails is caught inside
    [checkNewMessages]: the handler returns normally, having issued the
    request and logged one error line, and the state of the component
    (cursor, unread map and contact list included) is what it was before.
    When the failure is anything but a 401 response, the browser and the
    interval are untouched as well: the interval, with the period it had,
    fires again, and that firing sends the request to [/messages/log] again
    and goes on exactly as it would have from the state before the failure.
    On a 401 the client removes the token and sends the browser to [/login]:
    the page is unloaded, its interval is gone and nothing fires any more. *)
Theorem failed_tick_keeps_state_and_interval (rejection : Rejection) (now : Z)
    (p : PageState) (period : nat) (Hpoll : pollInterval p = Some period) :
  let fired := pollTickPage (inl rejection) now p in
  fired_outcome fired = Returned tt
  ∧ fired_effects fired
    = [Request (GetMessageLog 50); ConsoleError "Failed to check new messages:"]
  ∧ chat (fired_page fired) = chat p
  ∧ lastCheckedTime (chat (fired_page fired)) = lastCheckedTime (chat p)
  ∧ unreadCounts (chat (fired_page fired)) = unreadCounts (chat p)
  ∧ contacts (chat (fired_page fired)) = contacts (chat p)
  ∧ (Api.status (seen_by_client rejection) ≠ Some 401%nat →
       fired_page fired = p
       ∧ pollInterval (fired_page fired) = Some period
       ∧ ∀ answer' now',
           pollTickPage answer' now' (fired_page fired) = pollTickPage answer' now' p
           ∧ (∃ config, fired_request (pollTickPage answer' now' (fired_page fired))
                        = Some config
                        ∧ Api.method config = "GET"
                        ∧ Api.url config = "/messages/log")
           ∧ head (fired_effects (pollTickPage answer' now' (fired_page fired)))
             = Some (Request (GetMessageLog 50)))
  ∧ (Api.status (seen_by_client rejection) = Some 401%nat →
       pollInterval (fired_page fired) = None
       ∧ Api.href (browser (fired_page fired)) = "/login"
       ∧ Api.getItem "access_token" (browser (fired_page fired)) = None
       ∧ ∀ answer' now',
           pollTickPage answer' now' (fired_page fired)
           = mkFired (Returned tt) (fired_page fired) [] None).
Proof.
  intros fired. subst fired. unfold pollTickPage. rewrite Hpoll.
  rewrite checkNewMessages_failure. unfold outcome_of, state_after, effects_of.
  cbn [fired_outcome fired_page fired_effects fired_request chat browser
       pollInterval fst snd unloads].
  do 6 (split; [done|]). split.
  - intros Hother.
    rewrite (bool_decide_eq_false_2 _ Hother).
    assert ((Api.request (A := list LogMsg) "GET" "/messages/log"
               (inl (seen_by_client rejection)) (browser p)).1.2 = browser p) as Hb.
    { unfold Api.request, Api.responseError. simpl.
      by destruct (decide (Api.status (seen_by_client rejection) = Some 401%nat)). }
    rewrite Hb.
    assert ({| chat := chat p; browser := browser p; pollInterval := Some period |} = p)
      as Hsame.
    { destruct p. simpl in *. by subst. }
    rewrite Hsame. split; [done|]. split; [done|].
    intros answer' now'. split; [done|].
    cbn [fired_request fired_effects]. split.
    + eexists. split; [done|]. unfold Api.request, Api.requestInterceptor.
      destruct answer'; simpl; repeat case_match; done.
    + unfold effects_of. by destruct answer'.
  - intros H401. rewrite (bool_decide_eq_true_2 _ H401).
    unfold Api.request, Api.responseError. simpl.
    destruct (decide (Api.status (seen_by_client rejection) = Some 401%nat)); [|done].
    split; [done|]. split; [done|]. split.
    + unfold Api.getItem. simpl. apply lookup_delete_eq.
    + done.
Qed.

Lemma failed_tick_keeps_state_and_interval_witness :
  let p := mountPage 1000 (Api.mkBrowser {[ "access_token" := "secret" ]} "/chat") in
  let rejection := mkRejection (Api.mkAxiosError (Some 500%nat)) (mkJsError None) in
  let fired := pollTickPage (inl rejection) 4000 p in
  fired_outcome fired = Returned tt
  ∧ fired_effects fired
    = [Request (GetMessageLog 50); ConsoleError "Failed to check new messages:"]
  ∧ chat (fired_page fired) = chat p
  ∧ lastCheckedTime (chat (fired_page fired)) = lastCheckedTime (chat p)
  ∧ unreadCounts (chat (fired_page fired)) = unreadCounts (chat p)
  ∧ contacts (chat (fired_page fired)) = contacts (chat p)
  ∧ (Api.status (seen_by_client rejection) ≠ Some 401%nat →
       fired_page fired = p
       ∧ pollInterval (fired_page fired) = Some 3000%nat
       ∧ ∀ answer' now',
           pollTickPage answer' now' (fired_page fired) = pollTickPage answer' now' p
           ∧ (∃ config, fired_request (pollTickPage answer' now' (fired_page fired))
                        = Some config
                        ∧ Api.method config = "GET"
                        ∧ Api.url config = "/messages/log")
           ∧ head (fired_effects (pollTickPage answer' now' (fired_page fired)))
             = Some (Request (GetMessageLog 50)))
  ∧ (Api.status (seen_by_client rejection) = Some 401%nat →
       pollInterval (fired_page fired) = None
       ∧ Api.href (browser (fired_page fired)) = "/login"
       ∧ Api.getItem "access_token" (browser (fired_page fired)) = None
       ∧ ∀ answer' now',
           pollTickPage answer' now' (fired_page fired)
           = mkFired (Returned tt) (fired_page fired) [] None).
Proof.
  apply (failed_tick_keeps_state_and_interval
           (mkRejection (Api.mkAxiosError (Some 500%nat)) (mkJsError None)) 4000
           (mountPage 1000 (Api.mkBrowser {[ "access_token" := "secret" ]} "/chat"))
           3000%nat).
  reflexivity.
Defined.

(** C7, as stated, fails for a poll that is answered 401: the response
    interceptor of the client removes the token and sends the browser to
    [/login], so the failure does reach the host, the page is unloaded, and
    no tick retries: the next firing sends no request. *)
Lemma unauthorized_tick_ends_polling :
  let p := mountPage 1000 (Api.mkBrowser {[ "access_token" := "secret" ]} "/chat") in
  let rejection := mkRejection (Api.mkAxiosError (Some 401%nat)) (mkJsError None) in
  let after := fired_page (pollTickPage (inl rejection) 4000 p) in
  let next := pollTickPage (inr [group100_msg 5000 "hello"]) 7000 after in
  pollInterval p = Some 3000%nat
  ∧ pollInterval after = None
  ∧ Api.href (browser after) = "/login"
  ∧ Api.getItem "access_token" (browser after) = None
  ∧ fired_request next = None
  ∧ fired_effects next = []
  ∧ unreadCount (chat (fired_page next)) "group-100" = 0%nat.
Proof. by vm_compute. Qed.

(** ** Contact reconciliation *)

Lemma reconcileContacts_sort allMessages counts prevContacts :
  reconcileContacts allMessages counts prevContacts
  = array_sort (by_key_desc sortTime)
               (updateContact allMessages counts <$> prevContacts).
Proof. reflexivity. Qed.

Lemma StronglySorted_lookup_lt {A} (R : relation A) (l : list A) i j a b :
  StronglySorted R l → l !! i = Some a → l !! j = Some b → (i < j)%nat → R a b.
Proof.
  intros Hs. revert i j. induction Hs as [|x l Hl IH Hx]; intros i j Hi Hj Hlt.
  - by rewrite lookup_nil in Hi.
  - destruct j as [|j]; [lia|]. destruct i as [|i]; simpl in *.
    + injection Hi as ->. rewrite Forall_lookup in Hx. by eapply Hx.
    + eapply IH; [done..|lia].
Qed.

Lemma contactMessages_same_key c c' allMessages :
  id c = id c' → type c = type c' →
  contactMessages c allMessages = contactMessages c' allMessages.
Proof.
  intros Hid Hty. unfold contactMessages, matchesContact. by rewrite Hid, Hty.
Qed.

Lemma updateContact_key allMessages counts c :
  id (updateContact allMessages counts c) = id c
  ∧ type (updateContact allMessages counts c) = type c.
Proof. unfold updateContact. by destruct (contactMessages c allMessages). Qed.

(** Updating an updated contact from the same window changes nothing. *)
Lemma updateContact_idemp allMessages counts c :
  updateContact allMessages counts (updateContact allMessages counts c)
  = updateContact allMessages counts c.
Proof.
  destruct (updateContact_key allMessages counts c) as [Hid Hty].
  unfold updateContact at 1.
  rewrite (contactMessages_same_key _ c) by done.
  unfold contactKey. rewrite Hid, Hty.
  unfold updateContact.
  destruct (contactMessages c allMessages) as [|lastMsg rest] eqn:Hm; [done|].
  done.
Qed.

Lemma reconcileContacts_elem allMessages counts prevContacts c' :
  c' ∈ reconcileContacts allMessages counts prevContacts
  ↔ ∃ c, c ∈ prevContacts ∧ c' = updateContact allMessages counts c.
Proof.
  rewrite reconcileContacts_sort, (array_sort_perm sortTime), list_elem_of_fmap.
  split; intros (c & H1 & H2); by exists c.
Qed.

(** C3. The reconciled list is the list of updated contacts in a stable
    descending order of [lastMessageTime || 0]: a permutation of it, sorted,
    with contacts of equal rank in the order they have in the list that is
    reconciled. A contact with no time ranks as 0, so it comes after every
    contact whose time is positive. Scenario D: [A (no time); B (100); C (200)] becomes
    [C; B; A], both from stored times and from a window that delivers them. *)
Theorem reconcile_sorted_stable (allMessages : list LogMsg)
    (counts : gmap string nat) (prevContacts : list Contact) :
  let updated := updateContact allMessages counts <$> prevContacts in
  let sorted := reconcileContacts allMessages counts prevContacts in
  sorted ≡ₚ updated
  ∧ StronglySorted (key_ge sortTime) sorted
  ∧ (∀ t, filter (λ c, sortTime c = t) sorted = filter (λ c, sortTime c = t) updated)
  ∧ (∀ i j a b, sorted !! i = Some a → sorted !! j = Some b →
       lastMessageTime a = None → 0 < sortTime b → (j < i)%nat)
  ∧ reconcileContacts [] ∅ [contactA; contactB; contactC]
    = [contactC; contactB; contactA]
  ∧ name <$> reconcileContacts windowD ∅ [fresh contactA; fresh contactB; fresh contactC]
    = ["C"; "B"; "A"].
Proof.
  intros updated sorted. subst updated sorted.
  rewrite reconcileContacts_sort.
  pose proof (array_sort_sorted sortTime
                (updateContact allMessages counts <$> prevContacts)) as Hs.
  split; [apply (array_sort_perm sortTime)|].
  split; [done|].
  split; [intros t; apply (array_sort_stable sortTime)|].
  split; [|by vm_compute].
  intros i j a b Hi Hj Ha Hb.
  destruct (decide (j < i)%nat) as [|Hge]; [done|exfalso].
  assert (sortTime a = 0) as Ha0 by (unfold sortTime; by rewrite Ha).
  destruct (decide (i = j)) as [->|Hne].
  - rewrite Hi in Hj. injection Hj as ->. lia.
  - pose proof (StronglySorted_lookup_lt _ _ i j a b Hs Hi Hj) as Hab.
    unfold key_ge in Hab. lia.
Qed.

(** C3, as stated, fails on both counts. A contact whose only message is
    stamped before the epoch ranks below a contact with no time at all: from
    [B; A] and a window with one message of B stamped -1000 the reconciled
    list is [A; B]. And a tie is broken by the order of the previous contact
    list, not of the directory: the directory is [A; B], a first tick
    brings a message of B stamped 100 and moves B to the front, a second
    tick brings a message of A with the same stamp, and B stays in front. *)
Lemma untimed_not_last_and_tie_not_by_directory :
  let window := [private_msg "2" (-1000) "b"] in
  let sorted := reconcileContacts window ∅ [fresh contactB; fresh contactA] in
  let friends := [ {| d_id := "1"; d_name := "A"; d_avatar := "a.png";
                      d_member_count := None; d_max_member_count := None;
                      d_remark := None |};
                   {| d_id := "2"; d_name := "B"; d_avatar := "b.png";
                      d_member_count := None; d_max_member_count := None;
                      d_remark := None |} ] in
  let loaded := run [ContactsLoaded (inr ([], friends))] (mount 1000) in
  let ticked := run [PollTick (inr [private_msg "2" 100 "b"]) 4000;
                     PollTick (inr [private_msg "1" 100 "a";
                                    private_msg "2" 100 "b"]) 7000] loaded in
  (λ c, (name c, lastMessageTime c)) <$> sorted
  = [("A", None); ("B", Some (Num (-1000)))]
  ∧ name <$> contacts loaded = ["A"; "B"]
  ∧ (λ c, (name c, lastMessageTime c)) <$> contacts ticked
    = [("B", Some (Num 100)); ("A", Some (Num 100))].
Proof. by vm_compute. Qed.

(** C8. Reconciling the reconciled list again, with the same window and the
    same counts of the tick, returns it unchanged. *)
Theorem reconcile_idempotent (allMessages : list LogMsg)
    (counts : gmap string nat) (prevContacts : list Contact) :
  reconcileContacts allMessages counts
    (reconcileContacts allMessages counts prevContacts)
  = reconcileContacts allMessages counts prevContacts.
Proof.
  rewrite (reconcileContacts_sort _ _ (reconcileContacts _ _ _)).
  assert (updateContact allMessages counts
            <$> reconcileContacts allMessages counts prevContacts
          = reconcileContacts allMessages counts prevContacts) as ->.
  { rewrite <- (list_fmap_id (reconcileContacts _ _ _)) at 2.
    apply list_fmap_ext. intros i c' Hc'.
    apply list_elem_of_lookup_2, reconcileContacts_elem in Hc' as (c & _ & ->).
    apply updateContact_idemp. }
  rewrite reconcileContacts_sort. apply (array_sort_idemp sortTime).
Qed.

(** C4. A contact with a message in the window takes the time and the
    preview of the first such message, the most recent one of a window that
    is newest first, whether or not that message is newer than what the
    contact holds; a contact with no message in the window is left as it is;
    the reconciled contacts are exactly the input contacts so updated. The
    time of a contact therefore does not go back in a step whose first
    matching message is not older than the stored time. *)
Theorem reconcile_overwrites_from_window (allMessages : list LogMsg)
    (counts : gmap string nat) (prevContacts : list Contact) :
  (∀ c', c' ∈ reconcileContacts allMessages counts prevContacts
         ↔ ∃ c, c ∈ prevContacts ∧ c' = updateContact allMessages counts c)
  ∧ (∀ c, contactMessages c allMessages = [] →
          updateContact allMessages counts c = c)
  ∧ (∀ c lastMsg rest, contactMessages c allMessages = lastMsg :: rest →
       lastMessageTime (updateContact allMessages counts c) = Some (stampTime lastMsg)
       ∧ lastMessage (updateContact allMessages counts c)
         = (String.substring 0 30 <$> message lastMsg))
  ∧ (∀ c lastMsg rest, contactMessages c allMessages = lastMsg :: rest →
       sortTime c ≤ or_zero (Some (stampTime lastMsg)) →
       sortTime c ≤ sortTime (updateContact allMessages counts c)).
Proof.
  split; [intros c'; apply reconcileContacts_elem|].
  split; [intros c Hc; unfold updateContact; by rewrite Hc|].
  split.
  - intros c lastMsg rest Hc. unfold updateContact. by rewrite Hc.
  - intros c lastMsg rest Hc Hle. unfold sortTime at 2, updateContact.
    by rewrite Hc.
Qed.

(** C4, as stated, fails: the update is not guarded by a comparison. After a
    tick whose window holds a message of group 100 stamped 200, a tick whose
    window holds only an older one, stamped 100, puts the contact's time back
    to 100 and its preview back to the older text. *)
Lemma last_message_time_regresses :
  let loaded := run [ContactsLoaded (inr directory);
                     PollTick (inr [group100_msg 200 "newer"]) 4000] (mount 1000) in
  let later := run [PollTick (inr [group100_msg 100 "older"]) 7000] loaded in
  (λ c, (contactKey c, lastMessageTime c, lastMessage c)) <$> contacts loaded
  = [("group-100", Some (Num 200), Some "newer"); ("private-7", None, None)]
  ∧ (λ c, (contactKey c, lastMessageTime c, lastMessage c)) <$> contacts later
    = [("group-100", Some (Num 100), Some "older"); ("private-7", None, None)].
Proof. by vm_compute. Qed.

(** ** The open thread and the scroll effect *)

Lemma scrollDecision_spec prev n :
  scrollDecision n prev = scroll_call (spec_classify prev n).
Proof.
  unfold scrollDecision, spec_classify.
  destruct (Nat.ltb_spec prev n), (Nat.ltb_spec 0 prev), (Nat.ltb_spec 0 n),
    (Nat.eqb_spec prev 0); simpl;
    repeat (case_bool_decide; simpl); try done; lia.
Qed.

Lemma loadMessages_success contact showLoading data s :
  loadMessages contact showLoading (inr data) s
  = (Returned tt,
     (if showLoading then set_loading false else λ x, x)
       (set_prevMessagesLength (length data)
          (set_messages data ((if showLoading then set_loading true else λ x, x) s))),
     Request (GetChatHistory (type contact) (id contact) 50)
     :: match selectedContact s, scrollDecision (length data) (prevMessagesLength s) with
        | Some _, Some instant => [ScrollIntoView behavior_auto]
        | Some _, Some smooth => [ScrollIntoView behavior_smooth]
        | _, _ => []
        end).
Proof.
  unfold loadMessages. unfold_handler.
  destruct showLoading; simpl; rewrite scrollEffect_run; simpl;
    by rewrite app_nil_r.
Qed.

Lemma loadMessages_failure contact showLoading error s :
  state_after (loadMessages contact showLoading (inl error) s)
  = (if showLoading then set_loading false (set_loading true s) else s)
  ∧ effects_of (loadMessages contact showLoading (inl error) s)
    = [Request (GetChatHistory (type contact) (id contact) 50);
       ConsoleError "Failed to load messages:"].
Proof. by destruct showLoading. Qed.

(** C5. A thread update of [newLength] messages against the remembered
    [previousLength] is classified [initial] when [previousLength = 0] and
    [newLength > 0], [grown] when [newLength > previousLength > 0], and
    otherwise triggers nothing; [initial] scrolls with behavior [auto] (no
    animation) and [grown] with behavior [smooth], on the anchor of the open
    conversation; and the remembered length becomes [newLength] in every
    case, whichever call of [loadMessages] delivered the update. *)
Theorem scroll_classification (s : ChatState) (data : list Message)
    (contact : Contact) (showLoading : bool) :
  let previousLength := prevMessagesLength s in
  let newLength := length data in
  scrollDecision newLength previousLength
  = scroll_call (spec_classify previousLength newLength)
  ∧ effects_of (setMessages data s)
    = match selectedContact s, spec_classify previousLength newLength with
      | Some _, initial => [ScrollIntoView behavior_auto]
      | Some _, grown => [ScrollIntoView behavior_smooth]
      | _, _ => []
      end
  ∧ prevMessagesLength (state_after (setMessages data s)) = newLength
  ∧ prevMessagesLength
      (state_after (loadMessages contact showLoading (inr data) s)) = newLength.
Proof.
  intros previousLength newLength. subst previousLength newLength.
  split; [apply scrollDecision_spec|].
  split; [|split].
  - unfold setMessages. unfold_handler. rewrite scrollEffect_run. simpl.
    rewrite scrollDecision_spec.
    by destruct (selectedContact s),
         (spec_classify (prevMessagesLength s) (length data)).
  - unfold setMessages. unfold_handler. by rewrite scrollEffect_run.
  - rewrite loadMessages_success. by destruct showLoading.
Qed.


Lemma scrollDecision_instant n prev :
  scrollDecision n prev = Some instant ↔ (prev = 0 ∧ 0 < n)%nat.
Proof.
  rewrite scrollDecision_spec. unfold spec_classify.
  repeat (case_bool_decide; simpl); split; intros; try done; lia.
Qed.

Lemma scrollDecision_smooth n prev :
  scrollDecision n prev = Some smooth ↔ (0 < prev ∧ prev < n)%nat.
Proof.
  rewrite scrollDecision_spec. unfold spec_classify.
  repeat (case_bool_decide; simpl); split; intros; try done; lia.
Qed.










(** ** Sending *)

Lemma handle_messages_frame ev s :
  notThreadFetched ev = true → messages (state_after (handle ev s)) = messages s.
Proof.
  destruct ev as [r|r now|c| |c b r|text|r]; cbn [handle notThreadFetched];
    intros Hev; try done.
  - by destruct r.
  - by destruct r.
  - by rewrite (proj1 (proj2 (proj2 (proj2 (proj2 (handleSendMessage_frame _ _)))))).
Qed.

Lemma set_sending_restore s :
  sending s = false → set_sending false (set_sending true s) = s.
Proof. destruct s. simpl. by intros ->. Qed.

(** C9. [handleSendMessage] never touches the thread, whether the request
    succeeds or fails, and no event other than the arrival of a thread fetch
    does: a message that was sent shows up through the fetch that the
    handler schedules after a success, or through a later refresh. A failed
    send is caught by the handler, which returns normally, leaves the whole
    state as it was, and has then issued the request once, logged the error
    and shown it to the user in an alert: nothing is scheduled, so the send
    is not tried again. *)
Theorem send_leaves_thread (s : ChatState) (response : JsError + unit)
    (error : JsError) (evs : list Event) :
  messages (state_after (handleSendMessage response s)) = messages s
  ∧ messages (run (filter (λ ev, notThreadFetched ev = true) evs) s) = messages s
  ∧ effects_of (handleSendMessage (inr tt) s)
    = match selectedContact s with
      | Some selected =>
          if bool_decide (trim (inputMessage s) = "") || sending s then []
          else [Request (PostChatSend (type selected) (id selected)
                                      (trim (inputMessage s)));
                ConsoleLog "Message sent successfully:";
                SetTimeout (LoadMessages selected false) 300]
      | None => []
      end
  ∧ outcome_of (handleSendMessage (inl error) s) = Returned tt
  ∧ state_after (handleSendMessage (inl error) s) = s
  ∧ effects_of (handleSendMessage (inl error) s)
    = match selectedContact s with
      | Some selected =>
          if bool_decide (trim (inputMessage s) = "") || sending s then []
          else [Request (PostChatSend (type selected) (id selected)
                                      (trim (inputMessage s)));
                ConsoleError "Send message error:";
                Alert (detail_or "发送失败" error)]
      | None => []
      end.
Proof.
  split; [by rewrite (proj1 (proj2 (proj2 (proj2 (proj2 (handleSendMessage_frame _ _))))))|].
  split.
  { revert s. induction evs as [|ev evs IH]; intros s; [done|].
    rewrite filter_cons. destruct (decide (notThreadFetched ev = true)) as [Hev|]; [|done].
    by rewrite run_cons, IH, handle_messages_frame. }
  split.
  { unfold handleSendMessage, effects_of. unfold_handler.
    destruct (selectedContact s) as [selected|]; [|done].
    by destruct (bool_decide _ || sending s). }
  split; [apply (handle_returns (SendClick (inl error)))|].
  unfold handleSendMessage, state_after, effects_of. unfold_handler.
  destruct (selectedContact s) as [selected|]; [|done].
  destruct (bool_decide _) eqn:Ht; simpl; [done|].
  destruct (sending s) eqn:Hs; simpl; [done|].
  by rewrite set_sending_restore.
Qed.

(** ** The unread field of a contact and the badge *)

(** C10. After a successful tick the contacts are the previous ones, each
    updated from the window: a contact with a message in the window gets as
    [unread] the count of this tick alone for its key, that is the number of
    window messages newer than the poll's cursor and counted for the key (0
    when there is none), while a contact with no message in the window keeps
    the [unread] it had. The badge reads the separate map [unreadCounts],
    to which the tick adds its counts; and there are tick sequences after
    which a contact's [unread] differs from its badge. *)
Theorem contact_unread_is_per_tick (s : ChatState) (allMessages : list LogMsg)
    (now : Z) :
  let cursor := capturedLastCheckedTime s in
  let counts := newUnreadCounts cursor (viewedChats s) (selectedContact s) allMessages in
  let tickCount := λ key,
    length (filter (λ msg, isCounted (viewedChats s) (selectedContact s) key msg = true)
                   (newMessagesOnly cursor allMessages)) in
  let s' := state_after (checkNewMessages (inr allMessages) now s) in
  (∀ c', c' ∈ contacts s'
         ↔ ∃ c, c ∈ contacts s ∧ c' = updateContact allMessages counts c)
  ∧ (∀ c, contactMessages c allMessages ≠ [] →
          unread (updateContact allMessages counts c) = Some (tickCount (contactKey c)))
  ∧ (∀ c, contactMessages c allMessages = [] →
          updateContact allMessages counts c = c)
  ∧ (∀ key, unreadCount s' key = (unreadCount s key + tickCount key)%nat)
  ∧ (∃ evs c, c ∈ contacts (run evs (mount 1000))
              ∧ unread c ≠ Some (unreadCount (run evs (mount 1000)) (contactKey c))).
Proof.
  intros cursor counts tickCount s'. subst s'.
  split.
  { intros c'. rewrite checkNewMessages_success. unfold state_after. simpl.
    apply reconcileContacts_elem. }
  split.
  { intros c Hc. unfold updateContact.
    destruct (contactMessages c allMessages) as [|lastMsg rest]; [done|]. simpl.
    f_equal. subst counts tickCount. apply newUnreadCounts_lookup. }
  split; [intros c Hc; unfold updateContact; by rewrite Hc|].
  split; [intros key; apply tick_adds_to_count|].
  exists [ContactsLoaded (inr directory);
          PollTick (inr [group100_msg 2000 "hello"]) 4000;
          PollTick (inr [group100_self_msg 5000 "reply"]) 7000].
  eexists. split.
  - vm_compute. left.
  - by vm_compute.
Qed.

(** C10, as stated, fails for a contact with no message in the window: its
    [unread] is not put to the tick's count. After a tick that counts three
    new messages for group 100, a tick whose window holds only a private
    message counts none for the group, and the group's [unread] is still 3. *)
Lemma contact_unread_kept_without_window_message :
  let tick1 := [group100_msg 2002 "c"; group100_msg 2001 "b"; group100_msg 2000 "a"] in
  let tick2 := [private7_msg 5000 "x"] in
  let before := run [ContactsLoaded (inr directory); PollTick (inr tick1) 4000]
                    (mount 1000) in
  let after := run [PollTick (inr tick2) 7000] before in
  newUnreadCounts (capturedLastCheckedTime before) (viewedChats before)
                  (selectedContact before) tick2 !! "group-100" = None
  ∧ (λ c, (contactKey c, unread c)) <$> contacts after
    = [("private-7", Some 1%nat); ("group-100", Some 3%nat)].
Proof. by vm_compute. Qed.

(** * Further properties of the chat page *)

(** ** Unread counts and the viewed set over whole sessions *)

(** X1. Whatever happens to the page (responses that fail or succeed in any
    order, clicks, key strokes), no handler lets an exception escape: every
    request is awaited inside a [try] whose [catch] handles the rejection. *)
Theorem page_never_throws (evs : list Event) (s : ChatState) :
  outcome_of (handleAll evs s) = Returned tt.
Proof.
  revert s. induction evs as [|ev evs IH]; intros s; [done|].
  rewrite handleAll_cons.
  pose proof (handle_returns ev s) as Hr. unfold outcome_of in *.
  destruct (handle ev s) as [[[[]|e] s1] fx1]; simpl in *; [|done].
  specialize (IH s1). by destruct (handleAll evs s1) as [[r s2] fx2].
Qed.

(** X2. A conversation that was opened once is never counted as unread again
    in the session: after the click its count is 0 and stays 0 through every
    later event, also after the user went back or opened another
    conversation and new messages of it arrive. *)
Theorem opened_conversation_stays_read (s : ChatState) (contact : Contact)
    (evs : list Event) :
  unreadCount (run (ContactClick contact :: evs) s) (contactKey contact) = 0%nat
  ∧ contactKey contact ∈ viewedChats (run (ContactClick contact :: evs) s).
Proof.
  rewrite run_cons.
  assert (contactKey contact ∈ viewedChats (state_after (handle (ContactClick contact) s))
          ∧ unreadCount (state_after (handle (ContactClick contact) s))
                        (contactKey contact) = 0%nat) as Hinit.
  { cbn [handle]. unfold state_after, unreadCount, onContactClick. unfold_handler.
    simpl. rewrite lookup_delete_eq. split; [set_solver|done]. }
  revert Hinit. generalize (state_after (handle (ContactClick contact) s)).
  induction evs as [|ev evs IH]; intros s0 [Hv H0].
  - by rewrite run_nil.
  - rewrite run_cons. apply IH. by apply viewed_key_stays_zero.
Qed.

(** X3. The count of a key never goes down except by a click on the contact
    of that key: polls only add, and every other event, a click on another
    contact included, leaves the count as it is or higher. *)
Theorem unread_lowered_only_by_click (ev : Event) (s : ChatState) (key : string) :
  (unreadCount s key ≤ unreadCount (state_after (handle ev s)) key)%nat
  ∨ ∃ contact, ev = ContactClick contact ∧ contactKey contact = key.
Proof.
  destruct ev as [r|r now|c| |c b r|text|r]; cbn [handle].
  - left. by destruct r.
  - left. destruct r as [e|allMessages]; [done|].
    rewrite tick_adds_to_count. lia.
  - destruct (decide (contactKey c = key)) as [Hk|Hk]; [right; by exists c|left].
    unfold state_after, unreadCount, onContactClick. unfold_handler. simpl.
    by rewrite lookup_delete_ne.
  - by left.
  - left. pose proof (loadMessages_frame c b r s) as (Hu & _).
    unfold unreadCount. by rewrite Hu.
  - by left.
  - left. pose proof (handleSendMessage_frame r s) as (Hu & _).
    unfold unreadCount. by rewrite Hu.
Qed.

Lemma countMessage_selected_viewed viewed sel acc msg :
  contactKey sel ∈ viewed →
  countMessage viewed (Some sel) acc msg = countMessage viewed None acc msg.
Proof.
  intros Hv. unfold countMessage.
  destruct (is_system msg || is_self msg); [done|].
  destruct (decide (msgKey msg ∈ viewed)) as [|Hn]; [done|].
  destruct (decide (msgKey msg = contactKey sel)) as [He|]; [|done].
  by rewrite He in Hn.
Qed.

Lemma handle_selected_viewed ev s :
  (∀ c, selectedContact s = Some c → contactKey c ∈ viewedChats s) →
  ∀ c, selectedContact (state_after (handle ev s)) = Some c →
       contactKey c ∈ viewedChats (state_after (handle ev s)).
Proof.
  intros Hinv c.
  destruct ev as [r|r now|c0| |c0 b r|text|r]; cbn [handle].
  - destruct r; apply Hinv.
  - destruct (tick_keeps_captured_cursor r now s) as (_ & -> & ->). apply Hinv.
  - unfold state_after, onContactClick. unfold_handler. simpl.
    intros [= ->]. set_solver.
  - done.
  - destruct (loadMessages_frame c0 b r s) as (_ & -> & -> & _). apply Hinv.
  - apply Hinv.
  - destruct (handleSendMessage_frame r s) as (_ & -> & -> & _). apply Hinv.
Qed.

Lemma run_selected_viewed evs s :
  (∀ c, selectedContact s = Some c → contactKey c ∈ viewedChats s) →
  ∀ c, selectedContact (run evs s) = Some c → contactKey c ∈ viewedChats (run evs s).
Proof.
  revert s. induction evs as [|ev evs IH]; intros s Hinv.
  - by rewrite run_nil.
  - rewrite run_cons. apply IH. by apply handle_selected_viewed.
Qed.

(** X4. In every state the page reaches from its mount, the selected contact
    has been marked viewed. The poll's second test, which skips the messages
    of the selected contact, therefore never decides anything: the counts of
    a tick are the ones it would compute with no contact selected. *)
Theorem selected_contact_is_viewed (now : Z) (evs : list Event) :
  let s := run evs (mount now) in
  (∀ c, selectedContact s = Some c → contactKey c ∈ viewedChats s)
  ∧ (∀ cursor allMessages,
       newUnreadCounts cursor (viewedChats s) (selectedContact s) allMessages
       = newUnreadCounts cursor (viewedChats s) None allMessages).
Proof.
  intros s.
  assert (∀ c, selectedContact s = Some c → contactKey c ∈ viewedChats s) as Hinv.
  { subst s. apply run_selected_viewed. by intros c. }
  split; [done|].
  intros cursor allMessages. unfold newUnreadCounts.
  destruct (selectedContact s) as [sel|] eqn:Hsel; [|done].
  specialize (Hinv sel eq_refl).
  generalize (∅ : gmap string nat).
  induction (newMessagesOnly cursor allMessages) as [|msg l IH]; intros acc; [done|].
  simpl. by rewrite countMessage_selected_viewed, IH.
Qed.

(** X5. The viewed set only grows, and holds the key of every contact that
    was clicked: nothing in the session ever takes a key out of it. *)
Theorem viewed_set_only_grows (evs : list Event) (s : ChatState) :
  viewedChats s ⊆ viewedChats (run evs s)
  ∧ (∀ contact, ContactClick contact ∈ evs →
       contactKey contact ∈ viewedChats (run evs s)).
Proof.
  assert (∀ ev s0, viewedChats s0 ⊆ viewedChats (state_after (handle ev s0))) as Hstep.
  { intros ev s0. destruct ev as [r|r now|c| |c b r|text|r]; cbn [handle].
    - by destruct r.
    - by destruct (tick_keeps_captured_cursor r now s0) as (_ & -> & _).
    - unfold state_after, onContactClick. unfold_handler. simpl. set_solver.
    - done.
    - by destruct (loadMessages_frame c b r s0) as (_ & -> & _).
    - done.
    - by destruct (handleSendMessage_frame r s0) as (_ & -> & _). }
  assert (∀ evs0 s0, viewedChats s0 ⊆ viewedChats (run evs0 s0)) as Hmono.
  { induction evs0 as [|ev evs0 IH]; intros s0; [done|].
    rewrite run_cons. etrans; [apply Hstep|apply IH]. }
  split; [apply Hmono|].
  revert s. induction evs as [|ev evs IH]; intros s contact Hin.
  - by apply elem_of_nil in Hin.
  - rewrite run_cons. apply elem_of_cons in Hin as [<-|Hin]; [|by apply IH].
    apply Hmono. cbn [handle]. unfold state_after, onContactClick. unfold_handler.
    simpl. set_solver.
Qed.

(** ** Conversation keys *)

Lemma type_name_key_inj t1 t2 id1 id2 :
  type_name t1 +:+ "-" +:+ id1 = type_name t2 +:+ "-" +:+ id2 → t1 = t2 ∧ id1 = id2.
Proof. destruct t1, t2; simpl; intros H; by simplify_eq. Qed.

(** X6. Two contacts have the same conversation key exactly when they have
    the same type and the same id: no two conversations share an unread
    counter or a viewed mark, and a group never collides with a friend of
    the same number. *)
Theorem contactKey_identifies (c1 c2 : Contact) :
  contactKey c1 = contactKey c2 ↔ type c1 = type c2 ∧ id c1 = id c2.
Proof.
  unfold contactKey. split.
  - apply type_name_key_inj.
  - by intros [-> ->].
Qed.

(** X7. The two ways the poll attributes a message agree on ids that are
    strings and part on ids that are numbers. A message is listed under a
    contact (and may become its preview) exactly when the key it is counted
    under is the contact's key and the message is a group message whose
    group id is a string, or a private message whose user id is a string. A
    message whose id is a number is counted under the key the number spells
    but listed under no contact, and so is a message of any other type,
    which is counted under a [private-] key. *)
Theorem listed_iff_counted_under_key (contact : Contact) (msg : LogMsg) :
  (matchesContact contact msg = true
   ↔ msgKey msg = contactKey contact
     ∧ (message_type msg = "group" ∧ (∃ g, group_id msg = Some (IdString g))
        ∨ message_type msg = "private" ∧ (∃ u, user_id msg = IdString u)))
  ∧ (∀ n, message_type msg = "private" → user_id msg = IdNumber n →
          matchesContact contact msg = false
          ∧ msgKey msg = "private-" +:+ pretty n)
  ∧ (∀ n, message_type msg = "group" → group_id msg = Some (IdNumber n) →
          matchesContact contact msg = false
          ∧ msgKey msg = "group-" +:+ pretty n).
Proof.
  split; [|split].
  - unfold matchesContact, msgKey, contactKey.
    destruct (decide (message_type msg = "group")) as [Hg|Hg].
    + rewrite (bool_decide_eq_true_2 _ Hg). simpl.
      destruct (type contact) eqn:Hty; simpl.
      * rewrite bool_decide_eq_true. split.
        -- intros ->. simpl. split; [done|]. left. eauto.
        -- intros [Hk [[_ [g Hgid]]|[Hp _]]]; [|congruence].
           rewrite Hgid in *. simpl in Hk. by simplify_eq.
      * rewrite (bool_decide_eq_false_2 (message_type msg = "private")) by congruence.
        simpl. split; [done|]. intros [Hk _]. by simplify_eq.
    + rewrite (bool_decide_eq_false_2 _ Hg). simpl.
      destruct (decide (message_type msg = "private")) as [Hp|Hp].
      * rewrite (bool_decide_eq_true_2 _ Hp). simpl.
        destruct (type contact) eqn:Hty; simpl.
        -- split; [done|]. intros [Hk _]. by simplify_eq.
        -- rewrite bool_decide_eq_true. split.
           ++ intros ->. split; [done|]. right. eauto.
           ++ intros [Hk [[? _]|[_ [u Hu]]]]; [done|].
              rewrite Hu in *. simpl in Hk. by simplify_eq.
      * rewrite (bool_decide_eq_false_2 _ Hp). simpl.
        split; [done|]. intros [_ [[? _]|[? _]]]; done.
  - intros n Hp Hn. unfold matchesContact, msgKey. rewrite Hp, Hn. simpl.
    split; [|done]. by destruct (type contact).
  - intros n Hg Hn. unfold matchesContact, msgKey. rewrite Hg, Hn. simpl.
    split; [|done]. by destruct (type contact).
Qed.

(** ** The contact list over whole sessions *)

Lemma updateContact_identity allMessages counts c :
  contactIdentity (updateContact allMessages counts c) = contactIdentity c.
Proof. unfold updateContact. by destruct (contactMessages c allMessages). Qed.

(** X8. Only a directory that was fetched changes who is in the contact
    list. Every other event, a poll above all, leaves the same contacts
    (type, id, name and avatar), possibly in another order: a message of a
    conversation that is not in the list is counted but creates no entry,
    and no contact is dropped for having no message in the window. *)
Theorem contacts_changed_only_by_directory (ev : Event) (s : ChatState) :
  contactIdentity <$> contacts (state_after (handle ev s))
  ≡ₚ contactIdentity <$> contacts s
  ∨ ∃ data, ev = ContactsLoaded (inr data).
Proof.
  destruct ev as [r|r now|c| |c b r|text|r]; cbn [handle].
  - destruct r as [e|data]; [by left|right; by exists data].
  - left. destruct r as [e|allMessages]; [done|].
    rewrite checkNewMessages_success. unfold state_after. simpl.
    rewrite reconcileContacts_sort, (array_sort_perm sortTime).
    rewrite <- list_fmap_compose.
    assert (contactIdentity ∘ updateContact allMessages
              (newUnreadCounts (capturedLastCheckedTime s) (viewedChats s)
                               (selectedContact s) allMessages) <$> contacts s
            = contactIdentity <$> contacts s) as ->; [|done].
    apply list_fmap_ext. intros i c _. apply updateContact_identity.
  - by left.
  - by left.
  - left. by destruct (loadMessages_frame c b r s) as (_ & _ & _ & -> & _).
  - by left.
  - left. by destruct (handleSendMessage_frame r s) as (_ & _ & _ & -> & _).
Qed.

(** X9. Refreshing the directory. A fetch that fails keeps the contact list
    that was there and logs one error; a fetch that succeeds replaces the
    list by the groups followed by the friends, each as a contact with no
    preview, no time and no [unread] yet. Either way the loading flag ends
    [false], and the unread map, the viewed set, the selection, the thread
    and the cursor are not touched: badges survive a refresh. *)
Theorem directory_refresh (response : JsError + (list DirEntry * list DirEntry))
    (s : ChatState) :
  let s' := state_after (loadContacts response s) in
  contacts s'
  = match response with
    | inl _ => contacts s
    | inr data => (groupContact <$> data.1) ++ (friendContact <$> data.2)
    end
  ∧ effects_of (loadContacts response s)
    = match response with
      | inl _ => [Request GetChatContacts; ConsoleError "Failed to load contacts:"]
      | inr _ => [Request GetChatContacts]
      end
  ∧ (contactKey <$> contacts s'
     = match response with
       | inl _ => contactKey <$> contacts s
       | inr data => ((λ g, "group-" +:+ d_id g) <$> data.1)
                     ++ ((λ f, "private-" +:+ d_id f) <$> data.2)
       end)
  ∧ loading s' = false
  ∧ unreadCounts s' = unreadCounts s ∧ viewedChats s' = viewedChats s
  ∧ selectedContact s' = selectedContact s ∧ messages s' = messages s
  ∧ lastCheckedTime s' = lastCheckedTime s.
Proof.
  intros s'. subst s'. destruct response as [e|[groups friends]]; [done|].
  unfold loadContacts, state_after, effects_of. unfold_handler. simpl.
  repeat split; try done.
  rewrite fmap_app, <- !list_fmap_compose. done.
Qed.

(** ** The open thread *)

(** X10. A thread fetch that fails changes nothing of the conversation: the
    thread and the remembered length stay, nothing is scrolled, one error is
    logged, and the loading flag, if the fetch had raised it, is lowered. The
    next fetch that succeeds is therefore scrolled to exactly as if the
    failed one had not happened. *)
Theorem thread_fetch_failure_keeps_thread (contact : Contact) (showLoading : bool)
    (error : JsError) (s : ChatState) (next : Contact) (nextLoading : bool)
    (data : list Message) :
  let s' := state_after (loadMessages contact showLoading (inl error) s) in
  messages s' = messages s
  ∧ prevMessagesLength s' = prevMessagesLength s
  ∧ loading s' = (if showLoading then false else loading s)
  ∧ effects_of (loadMessages contact showLoading (inl error) s)
    = [Request (GetChatHistory (type contact) (id contact) 50);
       ConsoleError "Failed to load messages:"]
  ∧ effects_of (loadMessages next nextLoading (inr data) s')
    = effects_of (loadMessages next nextLoading (inr data) s).
Proof.
  intros s'.
  destruct (loadMessages_frame contact showLoading (inl error) s)
    as (_ & _ & Hsel & _).
  assert (prevMessagesLength s' = prevMessagesLength s) as Hprev
    by (subst s'; by destruct showLoading).
  split; [subst s'; by destruct showLoading|]. split; [done|].
  split; [subst s'; by destruct showLoading|].
  split; [by destruct showLoading|].
  rewrite !loadMessages_success. unfold effects_of. simpl.
  fold s' in Hsel. by rewrite Hsel, Hprev.
Qed.

(** X11. A fetched thread replaces the shown one as a whole, and a thread
    fetched right after another one that was not empty, and not longer than
    it, is not scrolled to, whatever its messages are. A thread that stays at
    the 50 messages the page asks for is therefore not scrolled to its
    newest message by the refreshes that follow the first one. *)
Theorem thread_not_scrolled_without_growth (s : ChatState)
    (contact1 contact2 : Contact) (showLoading1 showLoading2 : bool)
    (previous data : list Message)
    (Hshown : previous ≠ [])
    (Hlen : (length data ≤ length previous)%nat) :
  let shown := state_after (loadMessages contact1 showLoading1 (inr previous) s) in
  messages shown = previous
  ∧ messages (state_after (loadMessages contact2 showLoading2 (inr data) shown)) = data
  ∧ scrollCalls (effects_of (loadMessages contact2 showLoading2 (inr data) shown)) = [].
Proof.
  intros shown.
  assert (messages shown = previous
          ∧ prevMessagesLength shown = length previous) as [Hmsgs Hprev].
  { subst shown. rewrite loadMessages_success. unfold state_after.
    by destruct showLoading1. }
  split; [done|].
  rewrite loadMessages_success. unfold state_after, effects_of. simpl.
  split; [by destruct showLoading2|]. rewrite Hprev.
  assert (0 < length previous)%nat by (destruct previous; [done|simpl; lia]).
  destruct (scrollDecision (length data) (length previous)) as [[]|] eqn:Hd.
  - apply scrollDecision_smooth in Hd. lia.
  - apply scrollDecision_instant in Hd. lia.
  - by destruct (selectedContact shown).
Qed.

Lemma thread_not_scrolled_without_growth_witness :
  let s := run [ContactsLoaded (inr directory); ContactClick group100] (mount 1000) in
  let shown := state_after (loadMessages group100 true
                              (inr [thread_msg "1"; thread_msg "2"]) s) in
  messages shown = [thread_msg "1"; thread_msg "2"]
  ∧ messages (state_after (loadMessages group100 false
                             (inr [thread_msg "2"; thread_msg "3"]) shown))
    = [thread_msg "2"; thread_msg "3"]
  ∧ scrollCalls (effects_of (loadMessages group100 false
                               (inr [thread_msg "2"; thread_msg "3"]) shown)) = [].
Proof.
  apply (thread_not_scrolled_without_growth
           (run [ContactsLoaded (inr directory); ContactClick group100] (mount 1000))
           group100 group100 true false
           [thread_msg "1"; thread_msg "2"] [thread_msg "2"; thread_msg "3"]).
  - done.
  - simpl. lia.
Defined.

(** ** Sending *)

(** X12. After a send that succeeded the input is empty, so a second press
    of the button or of Enter, with nothing typed in between, sends nothing:
    it issues no request and leaves the state as it is. *)
Theorem no_second_send_after_success (s : ChatState) (response : JsError + unit) :
  let sent := state_after (handleSendMessage (inr tt) s) in
  effects_of (handleSendMessage response sent) = []
  ∧ state_after (handleSendMessage response sent) = sent.
Proof.
  intros sent.
  assert (sent = match selectedContact s with
                 | Some _ => if bool_decide (trim (inputMessage s) = "") || sending s then s
                             else set_sending false (set_inputMessage "" (set_sending true s))
                 | None => s end) as Hsent.
  { subst sent. unfold handleSendMessage, state_after. unfold_handler.
    destruct (selectedContact s); [|done].
    by destruct (bool_decide _ || sending s). }
  unfold handleSendMessage, state_after, effects_of. unfold_handler.
  rewrite Hsent. clear Hsent sent.
  destruct (selectedContact s) as [selected|] eqn:Hsel.
  - destruct (bool_decide (trim (inputMessage s) = "") || sending s) eqn:Hg.
    + rewrite Hsel, Hg. by simpl.
    + simpl. by rewrite Hsel.
  - by rewrite Hsel.
Qed.

Lemma append_cons c s t : String c s +:+ t = String c (s +:+ t).
Proof. reflexivity. Qed.

Lemma append_nil s : "" +:+ s = s.
Proof. reflexivity. Qed.

Lemma append_assoc s t u : (s +:+ t) +:+ u = s +:+ t +:+ u.
Proof. induction s as [|c s IH]; [done|]. by rewrite !append_cons, IH. Qed.

Lemma append_nil_r s : s +:+ "" = s.
Proof. induction s as [|c s IH]; [done|]. by rewrite append_cons, IH. Qed.

(** The white space character found at the front of a string is found
    there whatever follows it. *)
Lemma strip_space_split s rest :
  strip_space s = Some rest →
  ∃ w, s = w +:+ rest ∧ ∀ r, strip_space (w +:+ r) = Some r.
Proof.
  unfold strip_space. destruct s as [|c1 rest1]; [done|].
  destruct (is_whitespace c1) eqn:H1.
  { intros [= <-]. exists (String c1 ""). split; [done|].
    intros r. rewrite append_cons, append_nil. by rewrite H1. }
  destruct rest1 as [|c2 rest2]; [done|].
  destruct (is_whitespace2 c1 c2) eqn:H2.
  { intros [= <-]. exists (String c1 (String c2 "")). split; [done|].
    intros r. rewrite !append_cons, append_nil. by rewrite H1, H2. }
  destruct rest2 as [|c3 rest3]; [done|].
  destruct (is_whitespace3 c1 c2 c3) eqn:H3; [|done].
  intros [= <-]. exists (String c1 (String c2 (String c3 ""))). split; [done|].
  intros r. rewrite !append_cons, append_nil. by rewrite H1, H2, H3.
Qed.

Lemma strip_space_app s rest r :
  strip_space s = Some rest → strip_space (s +:+ r) = Some (rest +:+ r).
Proof.
  intros (w & -> & Hw)%strip_space_split. by rewrite append_assoc, Hw.
Qed.

Lemma strip_space_shorter s rest :
  strip_space s = Some rest → (String.length rest < String.length s)%nat.
Proof.
  unfold strip_space. destruct s as [|c1 rest1]; [done|].
  destruct (is_whitespace c1); [intros [= <-]; simpl; lia|].
  destruct rest1 as [|c2 rest2]; [done|].
  destruct (is_whitespace2 c1 c2); [intros [= <-]; simpl; lia|].
  destruct rest2 as [|c3 rest3]; [done|].
  destruct (is_whitespace3 c1 c2 c3); [|done]. intros [= <-]. simpl. lia.
Qed.

Lemma trimStart_unfold s :
  trimStart s = match strip_space s with
                | Some rest => trimStart rest
                | None => s
                end.
Proof.
  unfold strip_space. destruct s as [|c1 rest1]; [done|]. cbn [trimStart].
  destruct (is_whitespace c1); [done|].
  destruct rest1 as [|c2 rest2]; [done|].
  destruct (is_whitespace2 c1 c2); [done|].
  destruct rest2 as [|c3 rest3]; [done|].
  by destruct (is_whitespace3 c1 c2 c3).
Qed.

Lemma all_space_unfold s :
  all_space s = match s with
                | EmptyString => true
                | String _ _ =>
                    match strip_space s with
                    | Some rest => all_space rest
                    | None => false
                    end
                end.
Proof.
  unfold strip_space. destruct s as [|c1 rest1]; [done|]. cbn [all_space].
  destruct (is_whitespace c1); [done|].
  destruct rest1 as [|c2 rest2]; [done|].
  destruct (is_whitespace2 c1 c2); [done|].
  destruct rest2 as [|c3 rest3]; [done|].
  by destruct (is_whitespace3 c1 c2 c3).
Qed.

Lemma all_space_after w r :
  (∀ r', strip_space (w +:+ r') = Some r') → all_space (w +:+ r) = all_space r.
Proof.
  intros Hw. rewrite all_space_unfold, Hw.
  destruct (w +:+ r) eqn:Hwr; [|done].
  specialize (Hw r). by rewrite Hwr in Hw.
Qed.

Lemma trimStart_split s :
  ∃ l, s = l +:+ trimStart s ∧ all_space l = true
       ∧ starts_with_space (trimStart s) = false.
Proof.
  remember (String.length s) as n eqn:Hn. revert s Hn.
  induction (lt_wf n) as [n _ IH]. intros s ->.
  rewrite trimStart_unfold.
  destruct (strip_space s) as [rest|] eqn:Hs.
  - destruct (IH (String.length rest) (strip_space_shorter _ _ Hs) rest eq_refl)
      as (l & Hl & Hall & Hstart).
    destruct (strip_space_split _ _ Hs) as (w & -> & Hw).
    exists (w +:+ l). rewrite append_assoc, <- Hl. split; [done|].
    by rewrite all_space_after.
  - exists "". unfold starts_with_space. by rewrite Hs.
Qed.

Lemma trimEnd_split s :
  ∃ r, s = trimEnd s +:+ r ∧ all_space r = true
       ∧ ends_with_space (trimEnd s) = false.
Proof.
  induction s as [|c s (r & Hr & Hs & Hn)]; [by exists ""|].
  cbn [trimEnd]. destruct (all_space (String c s)) eqn:Hall.
  - by exists (String c s).
  - exists r. rewrite append_cons, <- Hr. split; [done|]. split; [done|].
    cbn [ends_with_space]. rewrite Hn, orb_false_r.
    apply bool_decide_eq_false. intros Hone.
    destruct (strip_space_split _ _ Hone) as (w & Hw & Hstrip).
    rewrite append_nil_r in Hw.
    assert (String c s = w +:+ r) as Hsplit.
    { rewrite <- Hw, append_cons. by rewrite <- Hr. }
    by rewrite Hsplit, all_space_after, Hs in Hall.
Qed.

(** What [trim] returns: the input without a prefix and a suffix of white
    space, and with no white space left at either end. *)
Lemma trim_split s :
  ∃ l r, s = l +:+ trim s +:+ r ∧ all_space l = true ∧ all_space r = true
         ∧ starts_with_space (trim s) = false ∧ ends_with_space (trim s) = false.
Proof.
  unfold trim.
  destruct (trimStart_split s) as (l & Hl & Hls & Hstart).
  destruct (trimEnd_split (trimStart s)) as (r & Hr & Hrs & Hend).
  exists l, r. split; [by rewrite <- Hr|].
  split; [done|]. split; [done|]. split; [|done].
  unfold starts_with_space in *.
  destruct (strip_space (trimEnd (trimStart s))) as [x|] eqn:Hx; [|done].
  apply (strip_space_app _ _ r) in Hx. rewrite <- Hr in Hx. by rewrite Hx in Hstart.
Qed.

(** X13. Whenever [handleSendMessage] issues a request, a contact is
    selected and the request is addressed to it, no other send is under way,
    and the text sent is the input without the white space around it: it is
    not empty and neither starts nor ends with white space. An input of
    white space only is never sent. *)
Theorem sent_text_is_trimmed (s : ChatState) (response : JsError + unit)
    (chatType : ContactType) (chatId text : string)
    (Hsent : Request (PostChatSend chatType chatId text)
             ∈ effects_of (handleSendMessage response s)) :
  (∃ c, selectedContact s = Some c ∧ chatType = type c ∧ chatId = id c)
  ∧ sending s = false
  ∧ text ≠ ""
  ∧ starts_with_space text = false ∧ ends_with_space text = false
  ∧ ∃ l r, inputMessage s = l +:+ text +:+ r
           ∧ all_space l = true ∧ all_space r = true.
Proof.
  unfold handleSendMessage, effects_of in Hsent. unfold_handler.
  destruct (selectedContact s) as [c|] eqn:Hsel; [|by apply elem_of_nil in Hsent].
  destruct (bool_decide (trim (inputMessage s) = "")) eqn:Ht; simpl in Hsent;
    [by apply elem_of_nil in Hsent|].
  destruct (sending s) eqn:Hs; simpl in Hsent; [by apply elem_of_nil in Hsent|].
  apply bool_decide_eq_false in Ht.
  assert (text = trim (inputMessage s) ∧ chatType = type c ∧ chatId = id c)
    as (-> & -> & ->).
  { destruct response as [e|[]]; simpl in Hsent;
      repeat (apply elem_of_cons in Hsent as [Hsent|Hsent]; [by simplify_eq|]);
      by apply elem_of_nil in Hsent. }
  destruct (trim_split (inputMessage s)) as (l & r & Hsplit & Hl & Hr & Hstart & Hend).
  split; [by exists c|]. do 4 (split; [done|]). by exists l, r.
Qed.

Lemma sent_text_is_trimmed_witness :
  let s := run [ContactClick group100; InputChange "  hello bot  "] (mount 1000) in
  (∃ c, selectedContact s = Some c ∧ group = type c ∧ "100" = id c)
  ∧ sending s = false
  ∧ "hello bot" ≠ ""
  ∧ starts_with_space "hello bot" = false ∧ ends_with_space "hello bot" = false
  ∧ ∃ l r, inputMessage s = l +:+ "hello bot" +:+ r
           ∧ all_space l = true ∧ all_space r = true.
Proof.
  apply (sent_text_is_trimmed
           (run [ContactClick group100; InputChange "  hello bot  "] (mount 1000))
           (inr tt) group "100" "hello bot").
  vm_compute. left.
Defined.

(** ** Previews and rows *)




Lemma append_empty_r s t : s +:+ t = "" → t = "".
Proof. destruct s; [done|]. by rewrite append_cons. Qed.

Lemma truthy_nonempty x s : truthy x = Some s → s ≠ "" ∧ x = Some s.
Proof.
  unfold truthy. destruct x as [s'|]; [|done].
  destruct (decide (s' = "")); [done|]. by intros [= ->].
Qed.

(** X15. Every row of the contact list shows a line under the name: the
    text chosen among preview, member count, remark and id is never empty.
    And once a poll has found a message with a text for the contact, the
    line is the preview of that message. *)
Theorem row_preview_never_empty (contact : Contact) (allMessages : list LogMsg)
    (counts : gmap string nat) :
  rowPreview contact ≠ ""
  ∧ (∀ lastMsg rest c text,
       contactMessages contact allMessages = lastMsg :: rest →
       message lastMsg = Some (String c text) →
       rowPreview (updateContact allMessages counts contact)
       = String.substring 0 30 (String c text)).
Proof.
  split.
  - unfold rowPreview.
    destruct (truthy (lastMessage contact)) as [p|] eqn:Hp.
    { by apply truthy_nonempty in Hp as [? _]. }
    assert (match truthy (remark contact) with
            | Some r => r
            | None => "ID: " +:+ id contact
            end ≠ "") as Hrest.
    { destruct (truthy (remark contact)) as [r|] eqn:Hr; [|done].
      by apply truthy_nonempty in Hr as [? _]. }
    destruct (type contact); [|done].
    destruct (member_count contact) as [[|n]|]; [done| |done].
    intros H. by apply append_empty_r in H.
  - intros lastMsg rest c text Hm Ht. unfold rowPreview, updateContact.
    rewrite Hm. simpl. by rewrite Ht.
Qed.

Lemma pretty_short n :
  (n ≤ 99)%nat → (String.length (pretty n) ≤ 2)%nat ∧ pretty n ≠ "".
Proof.
  intros Hn.
  assert (Forall (λ k, (String.length (pretty k) ≤ 2)%nat ∧ pretty k ≠ "")
                 (seq 0 100)) as Hall.
  { apply (bool_decide_unpack _). by vm_compute. }
  rewrite Forall_forall in Hall. apply Hall, elem_of_seq. lia.
Qed.

(** X16. The badge is hidden exactly for a count of 0, and what it shows is
    never empty and never longer than three characters: the count itself up
    to 99, and [99+] for every count above. *)
Theorem badge_is_short (unreadCount : nat) :
  (badge unreadCount = None ↔ unreadCount = 0%nat)
  ∧ (∀ text, badge unreadCount = Some text →
       text ≠ "" ∧ (String.length text ≤ 3)%nat
       ∧ (text = "99+" ↔ (99 < unreadCount)%nat)).
Proof.
  unfold badge. destruct (Nat.ltb_spec 0 unreadCount) as [Hpos|Hzero].
  - split; [split; [done|lia]|]. intros text [= <-].
    destruct (Nat.ltb_spec 99 unreadCount) as [Hbig|Hsmall].
    + split; [done|]. split; [simpl; lia|]. done.
    + destruct (pretty_short unreadCount Hsmall) as [Hlen Hne].
      split; [done|]. split; [lia|]. split; [|lia].
      intros H99. rewrite H99 in Hlen. simpl in Hlen. lia.
  - split; [split; [lia|done]|]. by intros text.
Qed.

(** ** Search and filter *)

Lemma includes_empty s : includes "" s = true.
Proof. by destruct s. Qed.

Lemma StronglySorted_filter {A} (R : relation A) (P : A → Prop)
    `{∀ x, Decision (P x)} (l : list A) :
  StronglySorted R l → StronglySorted R (filter P l).
Proof.
  induction 1 as [|x l Hl IH Hx]; [constructor|].
  rewrite filter_cons. destruct (decide (P x)); [|done].
  constructor; [done|]. rewrite Forall_forall in *.
  intros y [_ Hy]%list_elem_of_filter. by apply Hx.
Qed.

(** X17. Searching and filtering never reorder the contact list: the rows
    shown are a sublist of the reconciled contacts, so they are still in
    descending order of last message time, and all of the type asked for. *)
Theorem shown_rows_keep_order (toLowerCase : string → string)
    (searchQuery : string) (filterType : FilterType)
    (allMessages : list LogMsg) (counts : gmap string nat)
    (prevContacts : list Contact) :
  let sorted := reconcileContacts allMessages counts prevContacts in
  let shown := filteredContacts toLowerCase searchQuery filterType sorted in
  shown `sublist_of` sorted
  ∧ StronglySorted (key_ge sortTime) shown
  ∧ (∀ c, c ∈ shown → matchesType filterType c = true).
Proof.
  intros sorted shown. subst sorted shown. unfold filteredContacts.
  split; [apply sublist_filter|]. split.
  - apply StronglySorted_filter. rewrite reconcileContacts_sort.
    apply (array_sort_sorted sortTime).
  - intros c [Hc _]%list_elem_of_filter. by apply andb_true_iff in Hc as [_ ?].
Qed.

(** X18. With an empty search box (the empty string being its own lower
    case) every contact matches the search: the filter [all] shows the whole
    list, and the filters [group] and [private] show exactly the contacts
    of that type. *)
Theorem empty_search_shows_all (toLowerCase : string → string)
    (contacts : list Contact) (Hlower : toLowerCase "" = "") :
  filteredContacts toLowerCase "" filter_all contacts = contacts
  ∧ filteredContacts toLowerCase "" filter_group contacts
    = filter (λ c, type c = group) contacts
  ∧ filteredContacts toLowerCase "" filter_private contacts
    = filter (λ c, type c = private) contacts.
Proof.
  unfold filteredContacts. rewrite Hlower.
  split; [|split].
  - induction contacts as [|c l IH]; [done|].
    rewrite filter_cons, IH. cbv zeta. rewrite includes_empty. simpl.
    by destruct (decide (true = true)).
  - apply list_filter_iff. intros c. cbv zeta. rewrite includes_empty. simpl.
    by rewrite bool_decide_eq_true.
  - apply list_filter_iff. intros c. cbv zeta. rewrite includes_empty. simpl.
    by rewrite bool_decide_eq_true.
Qed.

Lemma empty_search_shows_all_witness :
  filteredContacts ascii_toLowerCase "" filter_all [contactA; group100] = [contactA; group100]
  ∧ filteredContacts ascii_toLowerCase "" filter_group [contactA; group100]
    = filter (λ c, type c = group) [contactA; group100]
  ∧ filteredContacts ascii_toLowerCase "" filter_private [contactA; group100]
    = filter (λ c, type c = private) [contactA; group100].
Proof.
  apply (empty_search_shows_all ascii_toLowerCase [contactA; group100]).
  reflexivity.
Defined.

(** ** Times *)

(** X19. A message between one minute and one hour old is labelled with its
    age in whole minutes, a number from 1 to 59 rounded down; and a message
    stamped later than the browser's clock is labelled as just arrived. *)
Theorem formatTime_minutes (toLocaleTimeString toLocaleDateString : jsnum → string)
    (now d : Z) (Hmin : 60000 ≤ now - d) (Hhour : now - d < 3600000) :
  (∃ m, formatTime toLocaleTimeString toLocaleDateString now (Num d)
        = pretty m +:+ "分钟前"
        ∧ 1 ≤ m ≤ 59
        ∧ 60000 * m ≤ now - d < 60000 * (m + 1))
  ∧ (∀ later, now ≤ later →
       formatTime toLocaleTimeString toLocaleDateString now (Num later) = "刚刚").
Proof.
  split.
  - exists ((now - d) / 60000). unfold formatTime.
    destruct (Z.ltb_spec (now - d) 60000); [lia|].
    destruct (Z.ltb_spec (now - d) 3600000); [|lia].
    split; [done|].
    pose proof (Z.div_mod (now - d) 60000 ltac:(lia)).
    pose proof (Z.mod_pos_bound (now - d) 60000 ltac:(lia)).
    lia.
  - intros later Hl. unfold formatTime.
    destruct (Z.ltb_spec (now - later) 60000); [done|lia].
Qed.

Lemma formatTime_minutes_witness :
  (∃ m, formatTime (λ _, "12:00") (λ _, "01-01 12:00") 1000000 (Num 880000)
        = pretty m +:+ "分钟前"
        ∧ 1 ≤ m ≤ 59
        ∧ 60000 * m ≤ 1000000 - 880000 < 60000 * (m + 1))
  ∧ (∀ later, 1000000 ≤ later →
       formatTime (λ _, "12:00") (λ _, "01-01 12:00") 1000000 (Num later) = "刚刚").
Proof.
  apply (formatTime_minutes (λ _, "12:00") (λ _, "01-01 12:00") 1000000 880000); lia.
Defined.

(** * Properties of the API client, the session store and the language *)

Lemma requestInterceptor_signed_out (b : Api.Browser) (config : Api.Config) :
  AuthStore.present (Api.getItem "access_token" b) = false →
  Api.requestInterceptor b config = config.
Proof.
  unfold Api.requestInterceptor, AuthStore.present.
  destruct (Api.getItem "access_token" b) as [token|]; [|done].
  destruct (decide (token = "")); [done|].
  by rewrite bool_decide_eq_true_2.
Qed.

Lemma requestInterceptor_signed_in (b : Api.Browser) (config : Api.Config) token :
  Api.getItem "access_token" b = Some token → token ≠ "" →
  Api.headers (Api.requestInterceptor b config) !! "Authorization"
  = Some ("Bearer " +:+ token).
Proof.
  intros Ht Hne. unfold Api.requestInterceptor. rewrite Ht.
  destruct (decide (token = "")); [done|]. simpl. by rewrite lookup_insert_eq.
Qed.

(** X20. The token that a successful login returns is sent with the next
    request: once [api.login] has resolved with a token that is not empty,
    any request made from the resulting browser state carries the header
    [Authorization: Bearer <token>], replacing whatever the request had
    there. *)
Theorem login_token_is_sent (b : Api.Browser) (data : Api.LoginResponse)
    (method url : string) (A : Type) (answer : Api.AxiosError + A)
    (Htoken : Api.access_token data ≠ "") :
  let signedIn := (Api.login (inr data) b).1.2 in
  Api.getItem "access_token" signedIn = Some (Api.access_token data)
  ∧ Api.headers (Api.request method url answer signedIn).2 !! "Authorization"
    = Some ("Bearer " +:+ Api.access_token data)
  ∧ (∀ config, Api.headers (Api.requestInterceptor signedIn config) !! "Authorization"
               = Some ("Bearer " +:+ Api.access_token data)).
Proof.
  intros signedIn.
  assert (Api.getItem "access_token" signedIn = Some (Api.access_token data)) as Hget.
  { subst signedIn. unfold Api.login, Api.request. simpl.
    destruct (decide (Api.access_token data = "")); [done|].
    unfold Api.getItem, Api.setItem. simpl. by rewrite lookup_insert_eq. }
  split; [done|]. split.
  - unfold Api.request. destruct answer; simpl;
      by apply requestInterceptor_signed_in.
  - intros config. by apply requestInterceptor_signed_in.
Qed.

Lemma login_token_is_sent_witness :
  let data := Api.mkLoginResponse "secret" "bearer" in
  let signedIn := (Api.login (inr data) (Api.mkBrowser ∅ "/login")).1.2 in
  Api.getItem "access_token" signedIn = Some "secret"
  ∧ Api.headers (Api.request "GET" "/messages/log" (inr tt) signedIn).2
      !! "Authorization" = Some ("Bearer " +:+ "secret")
  ∧ (∀ config, Api.headers (Api.requestInterceptor signedIn config) !! "Authorization"
               = Some ("Bearer " +:+ "secret")).
Proof.
  apply (login_token_is_sent (Api.mkBrowser ∅ "/login")
                             (Api.mkLoginResponse "secret" "bearer")
                             "GET" "/messages/log" unit (inr tt)).
  done.
Defined.

(** X21. An answer 401 to any request signs the browser out: the stored
    token is removed, the browser is sent to [/login], later requests carry
    no [Authorization] header of the client's, and the caller still gets the
    rejection. An error with any other status, or with no response at all,
    leaves the browser as it was. *)
Theorem unauthorized_answer_signs_out (b : Api.Browser) (method url : string)
    (A : Type) (error : Api.AxiosError) (H401 : Api.status error = Some 401%nat) :
  let outcome := Api.request (A := A) method url (inl error) b in
  outcome.1.1 = inl error
  ∧ Api.getItem "access_token" outcome.1.2 = None
  ∧ Api.href outcome.1.2 = "/login"
  ∧ (∀ config, Api.requestInterceptor outcome.1.2 config = config)
  ∧ (∀ other, Api.status other ≠ Some 401%nat →
       (Api.request (A := A) method url (inl other) b).1.2 = b).
Proof.
  intros outcome. subst outcome. unfold Api.request, Api.responseError. simpl.
  destruct (decide (Api.status error = Some 401%nat)) as [_|]; [|done].
  assert (Api.getItem "access_token"
            (Api.set_href "/login" (Api.removeItem "access_token" b)) = None) as Hnone.
  { unfold Api.getItem. simpl. apply lookup_delete_eq. }
  split; [done|]. split; [done|]. split; [done|]. split.
  - intros config. apply requestInterceptor_signed_out. by rewrite Hnone.
  - intros other Hother. by destruct (decide (Api.status other = Some 401%nat)).
Qed.

Lemma unauthorized_answer_signs_out_witness :
  let b := Api.mkBrowser {[ "access_token" := "secret" ]} "/chat" in
  let error := Api.mkAxiosError (Some 401%nat) in
  let outcome := Api.request (A := unit) "GET" "/messages/log" (inl error) b in
  outcome.1.1 = inl error
  ∧ Api.getItem "access_token" outcome.1.2 = None
  ∧ Api.href outcome.1.2 = "/login"
  ∧ (∀ config, Api.requestInterceptor outcome.1.2 config = config)
  ∧ (∀ other, Api.status other ≠ Some 401%nat →
       (Api.request (A := unit) "GET" "/messages/log" (inl other) b).1.2 = b).
Proof.
  apply (unauthorized_answer_signs_out
           (Api.mkBrowser {[ "access_token" := "secret" ]} "/chat")
           "GET" "/messages/log" unit (Api.mkAxiosError (Some 401%nat))).
  reflexivity.
Defined.

(** X22. Logging out through the store always ends signed out, whether the
    server answered or not: its promise never rejects, the store is cleared,
    the token and the user are gone from the storage, a page load would
    start signed out, and later requests carry no token. The client's own
    [api.logout] does not do as much: when its request fails with anything
    but a 401 it leaves the token where it was. *)
Theorem store_logout_always_clears (answer : Api.AxiosError + unit)
    (b : Api.Browser) (st : AuthStore.AuthState) :
  let done := AuthStore.logout answer b st in
  AuthStore.rejected done = None
  ∧ AuthStore.store done = AuthStore.signedOut
  ∧ Api.getItem "access_token" (AuthStore.browser done) = None
  ∧ Api.getItem "user" (AuthStore.browser done) = None
  ∧ AuthStore.getInitialState (AuthStore.browser done) = AuthStore.signedOut
  ∧ (∀ config, Api.requestInterceptor (AuthStore.browser done) config = config)
  ∧ (∀ error, Api.status error ≠ Some 401%nat →
       (Api.logout (inl error) b).1.2 = b).
Proof.
  intros done. subst done. unfold AuthStore.logout.
  destruct (Api.logout answer b) as [[result b1] c1] eqn:Hlogout. simpl.
  assert (Api.getItem "access_token"
            (Api.removeItem "user" (Api.removeItem "access_token" b1)) = None) as Htoken.
  { unfold Api.getItem. simpl. rewrite lookup_delete_ne by done.
    apply lookup_delete_eq. }
  assert (Api.getItem "user"
            (Api.removeItem "user" (Api.removeItem "access_token" b1)) = None) as Huser.
  { unfold Api.getItem. simpl. apply lookup_delete_eq. }
  split; [done|]. split; [done|]. split; [done|]. split; [done|]. split.
  { unfold AuthStore.getInitialState. by rewrite Htoken, Huser. }
  split.
  { intros config. apply requestInterceptor_signed_out. by rewrite Htoken. }
  intros error Herr. unfold Api.logout, Api.request, Api.responseError. simpl.
  by destruct (decide (Api.status error = Some 401%nat)).
Qed.

(** X23. After [checkAuth] the store and the storage agree: the store says
    authenticated exactly when a token was stored and the server returned
    the user, and that is also what the stored token says afterwards. When
    the store says authenticated, later requests carry the stored token;
    when it does not, they carry none. With no stored token no request is
    made, and the promise never rejects. *)
Theorem checkAuth_agrees_with_storage (meAnswer : Api.AxiosError + string)
    (b : Api.Browser) (st : AuthStore.AuthState) :
  let done := AuthStore.checkAuth meAnswer b st in
  AuthStore.rejected done = None
  ∧ (AuthStore.isAuthenticated (AuthStore.store done) = true
     ↔ AuthStore.present (Api.getItem "access_token" b) = true
       ∧ ∃ user, meAnswer = inr user)
  ∧ AuthStore.isAuthenticated (AuthStore.store done)
    = AuthStore.present (Api.getItem "access_token" (AuthStore.browser done))
  ∧ (∀ config,
       if AuthStore.isAuthenticated (AuthStore.store done)
       then ∃ token, AuthStore.token (AuthStore.store done) = Some token
                     ∧ Api.headers (Api.requestInterceptor (AuthStore.browser done) config)
                         !! "Authorization" = Some ("Bearer " +:+ token)
       else Api.requestInterceptor (AuthStore.browser done) config = config)
  ∧ (AuthStore.present (Api.getItem "access_token" b) = false →
       AuthStore.sent done = [] ∧ AuthStore.browser done = b).
Proof.
  intros done. subst done. unfold AuthStore.checkAuth.
  destruct (AuthStore.present (Api.getItem "access_token" b)) eqn:Hp.
  - destruct meAnswer as [error|user]; simpl.
    + assert (Api.getItem "access_token"
                (Api.removeItem "user"
                   (Api.removeItem "access_token" (Api.responseError error b))) = None)
        as Hnone.
      { unfold Api.getItem. simpl. rewrite lookup_delete_ne by done.
        apply lookup_delete_eq. }
      rewrite Hnone. simpl. repeat split; try done.
      * by intros [_ [user ?]].
      * intros config. apply requestInterceptor_signed_out. by rewrite Hnone.
    + assert (Api.getItem "access_token" (Api.setItem "user" user b)
              = Api.getItem "access_token" b) as Hsame.
      { unfold Api.getItem. simpl. by rewrite lookup_insert_ne. }
      rewrite Hsame, Hp. repeat split; try done; [by exists user|].
      intros config. unfold AuthStore.present in Hp.
      destruct (Api.getItem "access_token" b) as [token|] eqn:Ht; [|done].
      apply bool_decide_eq_true in Hp. exists token. split; [done|].
      apply requestInterceptor_signed_in; [|done]. by rewrite Hsame.
  - simpl. rewrite Hp. repeat split; try done; [by intros [? _]|].
    intros config. by apply requestInterceptor_signed_out.
Qed.

(** X24. Signing in through the store, when the server returns a token that
    is not empty. If the user is fetched too, the store is authenticated
    with that token. If fetching the user fails with anything but a 401, the
    action rejects and the store stays as it was, but the token is already
    stored: every later request carries it although the sign-in failed. If
    the login request itself is rejected, the store stays as it was and no
    second request is made. *)
Theorem store_login_outcomes (response : Api.LoginResponse) (b : Api.Browser)
    (st : AuthStore.AuthState) (Htoken : Api.access_token response ≠ "") :
  (∀ user,
     let done := AuthStore.login (inr response) (inr user) b st in
     AuthStore.rejected done = None
     ∧ AuthStore.isAuthenticated (AuthStore.store done) = true
     ∧ AuthStore.token (AuthStore.store done) = Some (Api.access_token response)
     ∧ Api.getItem "access_token" (AuthStore.browser done)
       = Some (Api.access_token response))
  ∧ (∀ error, Api.status error ≠ Some 401%nat →
       let done := AuthStore.login (inr response) (inl error) b st in
       AuthStore.rejected done = Some error
       ∧ AuthStore.store done = st
       ∧ Api.getItem "access_token" (AuthStore.browser done)
         = Some (Api.access_token response)
       ∧ (∀ config,
            Api.headers (Api.requestInterceptor (AuthStore.browser done) config)
              !! "Authorization" = Some ("Bearer " +:+ Api.access_token response)))
  ∧ (∀ error meAnswer,
       let done := AuthStore.login (inl error) meAnswer b st in
       AuthStore.rejected done = Some error ∧ AuthStore.store done = st
       ∧ length (AuthStore.sent done) = 1%nat).
Proof.
  split; [|split].
  - intros user done. subst done. unfold AuthStore.login, Api.login, Api.request.
    simpl. destruct (decide (Api.access_token response = "")); [done|]. simpl.
    repeat split; try done.
    unfold Api.getItem, Api.setItem. cbn [Api.localStorage].
    rewrite lookup_insert_ne by done. by rewrite lookup_insert_eq.
  - intros error Herr done. subst done.
    unfold AuthStore.login, Api.login, Api.request. simpl.
    destruct (decide (Api.access_token response = "")); [done|]. simpl.
    assert (∀ b0, Api.responseError error b0 = b0) as Hkeep.
    { intros b0. unfold Api.responseError.
      by destruct (decide (Api.status error = Some 401%nat)). }
    rewrite !Hkeep.
    assert (Api.getItem "access_token"
              (Api.setItem "access_token" (Api.access_token response)
                 (Api.setItem "access_token" (Api.access_token response) b))
            = Some (Api.access_token response)) as Hget.
    { unfold Api.getItem, Api.setItem. cbn [Api.localStorage].
      by rewrite lookup_insert_eq. }
    repeat split; try done.
    intros config. by apply requestInterceptor_signed_in.
  - intros error meAnswer done. by subst done.
Qed.

Lemma store_login_outcomes_witness :
  let response := Api.mkLoginResponse "secret" "bearer" in
  let b := Api.mkBrowser ∅ "/login" in
  let done := AuthStore.login (inr response) (inl (Api.mkAxiosError (Some 500%nat)))
                              b AuthStore.signedOut in
  AuthStore.rejected done = Some (Api.mkAxiosError (Some 500%nat))
  ∧ AuthStore.store done = AuthStore.signedOut
  ∧ Api.getItem "access_token" (AuthStore.browser done) = Some "secret"
  ∧ (∀ config,
       Api.headers (Api.requestInterceptor (AuthStore.browser done) config)
         !! "Authorization" = Some ("Bearer " +:+ "secret")).
Proof.
  apply (proj1 (proj2 (store_login_outcomes (Api.mkLoginResponse "secret" "bearer")
                         (Api.mkBrowser ∅ "/login") AuthStore.signedOut
                         ltac:(done)))
               (Api.mkAxiosError (Some 500%nat))).
  done.
Defined.

(** ** The language *)

(** X25. The language is always one of [zh] and [en], whatever the storage
    holds and also when it cannot be read. Switching stores the language it
    switches to, so that the next page load reads that language back; and
    between [zh] and [en] switching twice returns to the language one
    started from. *)
Theorem language_round_trip (language : string) (b : Api.Browser)
    (storage : option Api.Browser) :
  let switched := I18n.toggleLanguage language b in
  (I18n.getLanguage storage = "zh" ∨ I18n.getLanguage storage = "en")
  ∧ I18n.getLanguage (Some switched.2) = switched.1
  ∧ (switched.1 = "en" ↔ language = "zh")
  ∧ (language = "zh" ∨ language = "en" →
     (I18n.toggleLanguage switched.1 switched.2).1 = language).
Proof.
  intros switched. subst switched. split; [|split; [|split]].
  - unfold I18n.getLanguage. destruct storage as [b0|]; [|by left].
    destruct (Api.getItem "language" b0) as [lang|]; [|by left].
    destruct (bool_decide_reflect (lang = "en")) as [->|]; [by right|]. simpl.
    destruct (bool_decide_reflect (lang = "zh")) as [->|]; by left.
  - unfold I18n.toggleLanguage, I18n.getLanguage, Api.getItem. simpl.
    rewrite lookup_insert_eq. by destruct (decide (language = "zh")).
  - unfold I18n.toggleLanguage. simpl.
    by destruct (decide (language = "zh")).
  - intros [->| ->]; reflexivity.
Qed.
